(** * ml.py: relabeled subsets and the DeCov / DeCorr / HalfCorr losses

    A shallow embedding of [src/ml/lib/ml.py].

    Numbers.  Tensor entries are exact rationals extended with the
    non-finite values a float division by zero produces ([NaN] and the
    two infinities); rounding is not modelled, so every equation below is
    an equation of exact arithmetic.

    Tensors.  A tensor is its shape and its entries in row-major order,
    as a contiguous torch tensor is.

    Exceptions.  A call returns [Ok v] or [Raise e].

    Randomness.  [torch.randperm] draws from an ambient generator; the
    generator is threaded explicitly through [RelabeledSubset.__init__]. *)

From Stdlib Require Import String.
From Stdlib Require Import List ZArith QArith Qabs Lia Lqa Bool Permutation Arith.
Import ListNotations.

Set Implicit Arguments.
Local Open Scope nat_scope.

(* ------------------------------------------------------------------ *)
(** ** Exceptions *)

Inductive exn : Type :=
| Exception (msg : string)      (* [raise Exception(msg)] *)
| ZeroDivisionError             (* Python float or int division by zero *)
| RuntimeError                  (* raised from inside a torch operator *)
| IndexError.                   (* index out of range, too many indices *)

Inductive result (A : Type) : Type :=
| Ok (a : A)
| Raise (e : exn).
Arguments Ok {A} a.
Arguments Raise {A} e.

Definition bind {A B} (r : result A) (k : A -> result B) : result B :=
  match r with
  | Ok a => k a
  | Raise e => Raise e
  end.

Notation "x <- r ;; k" := (bind r (fun x => k))
  (at level 61, r at next level, right associativity).

(** The message of the guard at the head of [cov_matrix] and
    [corr_matrix_sq]; the spec calls this failure [ShapeError]. *)
Definition ShapeError : exn :=
  Exception "input must have at least 2 dimensions"%string.

(** The message of the last branch of [RelabeledSubset.__init__]; the spec
    calls this failure [ConfigError]. *)
Definition ConfigError : exn :=
  Exception "target2_config must be 'index', 'shuffle', 'none', or an integer"%string.

(* ------------------------------------------------------------------ *)
(** ** Scalars *)

Inductive scalar : Type :=
| Fin (q : Q)
| Inf (negative : bool)
| NaN.

Definition Qis0 (q : Q) : bool := Qeq_bool q 0%Q.
Definition Qneg (q : Q) : bool := negb (Qle_bool 0%Q q).

Definition fadd (x y : scalar) : scalar :=
  match x, y with
  | NaN, _ | _, NaN => NaN
  | Fin a, Fin b => Fin (a + b)%Q
  | Inf s, Fin _ | Fin _, Inf s => Inf s
  | Inf s, Inf t => if Bool.eqb s t then Inf s else NaN
  end.

Definition fneg (x : scalar) : scalar :=
  match x with
  | Fin a => Fin (- a)%Q
  | Inf s => Inf (negb s)
  | NaN => NaN
  end.

Definition fsub (x y : scalar) : scalar :=
  match x, y with
  | Fin a, Fin b => Fin (a - b)%Q
  | _, _ => fadd x (fneg y)
  end.

Definition fmul (x y : scalar) : scalar :=
  match x, y with
  | NaN, _ | _, NaN => NaN
  | Fin a, Fin b => Fin (a * b)%Q
  | Inf s, Fin a | Fin a, Inf s =>
      if Qis0 a then NaN else Inf (xorb s (Qneg a))
  | Inf s, Inf t => Inf (xorb s t)
  end.

(** Tensor division: dividing by zero raises nothing, it yields [NaN]
    (for 0/0) or an infinity.  The zero divisor is taken as +0. *)
Definition fdiv (x y : scalar) : scalar :=
  match x, y with
  | NaN, _ | _, NaN => NaN
  | Fin a, Fin b =>
      if Qis0 b then (if Qis0 a then NaN else Inf (Qneg a))
      else Fin (a / b)%Q
  | Fin _, Inf _ => Fin 0%Q
  | Inf s, Fin b => Inf (xorb s (Qneg b))
  | Inf _, Inf _ => NaN
  end.

Definition fsquare (x : scalar) : scalar := fmul x x.


Fixpoint fsum (l : list scalar) : scalar :=
  match l with
  | [] => Fin 0%Q
  | x :: l' => fadd x (fsum l')
  end.

Definition of_nat (n : nat) : scalar := Fin (inject_Z (Z.of_nat n)).

(** Python's [a / b] on floats: a zero divisor raises. *)
Definition py_truediv (a b : Q) : result scalar :=
  if Qis0 b then Raise ZeroDivisionError else Ok (Fin (a / b)%Q).

(* ------------------------------------------------------------------ *)
(** ** Tensors *)

Record tensor : Type := mkTensor {
  shape : list nat;
  data : list scalar
}.

Definition numel (s : list nat) : nat := fold_right Nat.mul 1 s.

Definition wf (X : tensor) : Prop := length (data X) = numel (shape X).

Definition ndim (X : tensor) : nat := length (shape X).

(** [X.shape[-1]] and [X.shape[-2]] (read only where [ndim] allows it). *)
Definition dim_last (s : list nat) : nat := last s 0.
Definition dim_last2 (s : list nat) : nat := last (removelast s) 0.
Definition batch_shape (s : list nat) : list nat := removelast (removelast s).

(** Row [r] of a row-major buffer whose last axis has length [N]. *)
Definition row {A} (N : nat) (d : list A) (r : nat) : list A :=
  firstn N (skipn (r * N) d).

Definition rows (X : tensor) : list (list scalar) :=
  map (row (dim_last (shape X)) (data X))
      (seq 0 (numel (removelast (shape X)))).

Fixpoint map2 {A B C} (f : A -> B -> C) (l : list A) (m : list B) : list C :=
  match l, m with
  | a :: l', b :: m' => f a b :: map2 f l' m'
  | _, _ => []
  end.

(** [torch.mean(X, dim=-1, keepdim=True)] *)
Definition mean_row (r : list scalar) : scalar :=
  fdiv (fsum r) (of_nat (length r)).

Definition mean_keepdim (X : tensor) : tensor :=
  mkTensor (removelast (shape X) ++ [1]) (map mean_row (rows X)).

(** [X - mean], the mean broadcast along the last axis. *)
Definition center_row (r : list scalar) (m : scalar) : list scalar :=
  map (fun x => fsub x m) r.

Definition sub_keepdim (X M : tensor) : tensor :=
  mkTensor (shape X) (concat (map2 center_row (rows X) (data M))).

(** [torch.var(X, dim=-1)]: unbiased, the divisor is [max(0, N - 1)]. *)
Definition var_row (r : list scalar) : scalar :=
  let m := mean_row r in
  fdiv (fsum (map (fun x => fsquare (fsub x m)) r)) (of_nat (length r - 1)).

Definition var_last (X : tensor) : tensor :=
  mkTensor (removelast (shape X)) (map var_row (rows X)).

Definition tmap (f : scalar -> scalar) (X : tensor) : tensor :=
  mkTensor (shape X) (map f (data X)).

Definition dot (a b : list scalar) : scalar := fsum (map2 fmul a b).

(** [A @ X.transpose(-1, -2)] for [A] and [X] of one shape [.. x F x N]:
    entry [(b, i, j)] is the dot product of row [i] of [A] and row [j] of
    [X] within batch [b].  The transpose is a view, no entry moves. *)
Definition matmul_transposed (A X : tensor) : tensor :=
  let N := dim_last (shape X) in
  let F := dim_last2 (shape X) in
  let bs := batch_shape (shape X) in
  mkTensor (bs ++ [F; F])
    (flat_map (fun b =>
       flat_map (fun i =>
         map (fun j => dot (row N (data A) (b * F + i))
                           (row N (data X) (b * F + j)))
             (seq 0 F))
         (seq 0 F))
       (seq 0 (numel bs))).

(** [torch.outer(v, w)]: both arguments must be 1-D. *)
Definition outer (v w : tensor) : result tensor :=
  match shape v, shape w with
  | [n], [m] =>
      Ok (mkTensor [n; m]
            (flat_map (fun x => map (fun y => fmul x y) (data w)) (data v)))
  | _, _ => Raise RuntimeError
  end.

(** [A /= B] for two tensors of one shape. *)
Definition div_inplace (A B : tensor) : tensor :=
  mkTensor (shape A) (map2 fdiv (data A) (data B)).

(** Multi-index of a flat position, last axis fastest. *)
Fixpoint unravel (s : list nat) (p : nat) : list nat :=
  match s with
  | [] => []
  | _ :: s' => (p / numel s') :: unravel s' (p mod numel s')
  end.

Fixpoint ravel (s : list nat) (ix : list nat) : nat :=
  match s, ix with
  | _ :: s', i :: ix' => i * numel s' + ravel s' ix'
  | _, _ => 0
  end.

Definition positions (X : tensor) : list nat := seq 0 (numel (shape X)).

(** [X.T]: the axes reversed. *)
Definition transpose_all (X : tensor) : tensor :=
  let s' := rev (shape X) in
  mkTensor s'
    (map (fun p => nth (ravel (shape X) (rev (unravel s' p))) (data X) NaN)
         (seq 0 (numel s'))).

(** [X.diagonal().zero_()]: the entries whose first two indices agree are
    overwritten with zero. *)
Definition on_diagonal (s : list nat) (p : nat) : bool :=
  match unravel s p with
  | i :: j :: _ => Nat.eqb i j
  | _ => false
  end.

Definition zero_diagonal (X : tensor) : tensor :=
  mkTensor (shape X)
    (map2 (fun p x => if on_diagonal (shape X) p then Fin 0%Q else x)
          (positions X) (data X)).

Definition tsum (X : tensor) : scalar := fsum (data X).

(* ------------------------------------------------------------------ *)
(** ** The kernel: [cov_matrix] and [corr_matrix_sq] *)

Definition cov_matrix (X : tensor) : result tensor :=
  if ndim X <? 2 then Raise ShapeError else
  let N := dim_last (shape X) in
  let mean := mean_keepdim X in
  let X := sub_keepdim X mean in
  s <- py_truediv 1%Q (inject_Z (Z.of_nat N - 1)) ;;
  Ok (matmul_transposed (tmap (fmul s) X) X).

(** The default of the keyword argument [eps] of [corr_matrix_sq]. *)
Definition corr_matrix_sq_eps_default : scalar := Fin 0%Q.

Definition corr_matrix_sq (X : tensor) (eps : option scalar) : result tensor :=
  let eps := match eps with Some e => e | None => corr_matrix_sq_eps_default end in
  if ndim X <? 2 then Raise ShapeError else
  let N := dim_last (shape X) in
  let mean := mean_keepdim X in
  let X := sub_keepdim X mean in
  let var := tmap (fun v => fadd v eps) (var_last X) in
  let corr_sq := matmul_transposed X X in
  let corr_sq := tmap fsquare corr_sq in
  vv <- outer var var ;;
  let corr_sq := div_inplace corr_sq vv in
  let d := (inject_Z (Z.of_nat N) - 1)%Q in
  s <- py_truediv 1%Q (d * d)%Q ;;
  Ok (tmap (fmul s) corr_sq).

(* ------------------------------------------------------------------ *)
(** ** The loss suite *)

(** [int(round(n / 2))]: Python rounds a half to the even neighbour. *)
Definition round_half (n : nat) : nat :=
  let k := n / 2 in
  if Nat.even n then k else if Nat.even k then k else k + 1.

(** [X[:, h:]]: needs two axes.  For each index along axis 0 the block
    of [d1 * m] entries ([m] the size of one slice along axis 1) loses its
    first [h * m] entries. *)
Definition slice_axis1_from (h : nat) (X : tensor) : result tensor :=
  match shape X with
  | d0 :: d1 :: s' =>
      let m := numel s' in
      Ok (mkTensor (d0 :: (d1 - h) :: s')
            (flat_map (fun i0 => skipn (h * m) (row (d1 * m) (data X) i0))
                      (seq 0 d0)))
  | _ => Raise IndexError
  end.

(** [X.shape[-1]] on a tensor that may have no axis at all. *)
Definition shape_last (X : tensor) : result nat :=
  match shape X with
  | [] => Raise IndexError
  | s => Ok (dim_last s)
  end.

Definition decov_criterion (activations : tensor) : result scalar :=
  cov <- cov_matrix (transpose_all activations) ;;
  let cov := zero_diagonal cov in
  let decov_loss := tsum (tmap fsquare cov) in
  Ok decov_loss.

(** The default of the keyword argument [eps] of both criteria: 1e-3. *)
Definition criterion_eps_default : scalar := Fin (1 # 1000).

Definition decorr_criterion (activations : tensor) (eps : option scalar)
  : result scalar :=
  let eps := match eps with Some e => e | None => criterion_eps_default end in
  corr_sq <- corr_matrix_sq activations (Some eps) ;;
  let corr_sq := zero_diagonal corr_sq in
  let decorr_loss := tsum corr_sq in
  Ok decorr_loss.

Definition halfcorr_criterion (activations : tensor) (eps : option scalar)
  : result scalar :=
  let eps := match eps with Some e => e | None => criterion_eps_default end in
  n <- shape_last activations ;;
  let half := round_half n in
  sliced <- slice_axis1_from half activations ;;
  corr_sq <- corr_matrix_sq sliced (Some eps) ;;
  let corr_sq := zero_diagonal corr_sq in
  let halfcorr_loss := tsum corr_sq in
  Ok halfcorr_loss.

(** A 2-D tensor from its rows. *)
Definition of_rows (F N : nat) (rs : list (list Q)) : tensor :=
  mkTensor [F; N] (map Fin (concat rs)).


(* ------------------------------------------------------------------ *)
(** ** The statistics the spec names, over the rationals *)

Module Stat.
Local Open Scope Q_scope.

Fixpoint Qsum (l : list Q) : Q :=
  match l with
  | [] => 0
  | x :: l' => x + Qsum l'
  end.

Definition Qlen (l : list Q) : Q := inject_Z (Z.of_nat (List.length l)).

Definition mean (r : list Q) : Q := Qsum r / Qlen r.

Definition centered (r : list Q) : list Q := map (fun x => x - mean r) r.

Definition dotQ (a b : list Q) : Q := Qsum (map2 Qmult a b).

(** Unbiased sample covariance of two rows of [N] samples:
    [(1/(N-1)) * x_centered . y_centered]. *)
Definition sample_cov (a b : list Q) : Q :=
  (1 / (Qlen a - 1)) * dotQ (centered a) (centered b).

(** Unbiased sample variance of a row: the squared deviations from the
    mean, summed and divided by [N - 1]. *)
Definition sample_var (r : list Q) : Q :=
  Qsum (map (fun x => (x - mean r) * (x - mean r)) r) / (Qlen r - 1).

End Stat.

(* ------------------------------------------------------------------ *)
(** ** Lists: rows of a row-major buffer *)


Lemma map2_length {A B C} (f : A -> B -> C) (l : list A) (m : list B) :
  List.length (map2 f l m) = Nat.min (List.length l) (List.length m).
Proof.
  revert m; induction l as [|a l IH]; intros [|b m]; simpl; auto.
Qed.






Lemma nth_map_seq {B} (f : nat -> B) n i d :
  i < n -> nth i (map f (seq 0 n)) d = f i.
Proof.
  intros Hi. rewrite (nth_indep _ d (f 0)) by (rewrite length_map, length_seq; lia).
  rewrite map_nth, seq_nth by lia. reflexivity.
Qed.

Lemma flat_map_length_uniform {A B} (f : A -> list B) n (l : list A) :
  (forall x, In x l -> List.length (f x) = n) ->
  List.length (flat_map f l) = List.length l * n.
Proof.
  induction l as [|a l IH]; intros H; simpl; auto.
  rewrite length_app, H by (simpl; auto).
  rewrite IH; [reflexivity | intros; apply H; simpl; auto].
Qed.


(* ------------------------------------------------------------------ *)
(** ** Shapes *)

Lemma dim_last_app s n : dim_last (s ++ [n]) = n.
Proof. unfold dim_last. apply last_last. Qed.

Lemma numel_app s t : numel (s ++ t) = numel s * numel t.
Proof.
  induction s as [|a s IH]; simpl; [lia | rewrite IH; lia].
Qed.

Lemma shape_FN_split (bs : list nat) F N : bs ++ [F; N] = (bs ++ [F]) ++ [N].
Proof. now rewrite <- app_assoc. Qed.


Lemma shape_FN_init (bs : list nat) F N : removelast (bs ++ [F; N]) = bs ++ [F].
Proof.
  rewrite shape_FN_split. apply removelast_last.
Qed.

Lemma shape_FN_last2 bs F N : dim_last2 (bs ++ [F; N]) = F.
Proof. unfold dim_last2. rewrite shape_FN_init. apply dim_last_app. Qed.

Lemma shape_FN_batch bs F N : batch_shape (bs ++ [F; N]) = bs.
Proof. unfold batch_shape. rewrite shape_FN_init. apply removelast_last. Qed.



(* ------------------------------------------------------------------ *)
(** ** Finite scalars compute as rationals *)

Lemma Qis0_false q : ~ (q == 0)%Q -> Qis0 q = false.
Proof.
  intros H. unfold Qis0. destruct (Qeq_bool q 0) eqn:E; auto.
  apply Qeq_bool_eq in E. contradiction.
Qed.


Lemma Qlen_pos (l : list Q) : l <> [] -> (0 < Stat.Qlen l)%Q.
Proof.
  intros H. unfold Stat.Qlen. destruct l; [congruence|].
  change 0%Q with (inject_Z 0). rewrite <- Zlt_Qlt. simpl List.length. lia.
Qed.

Lemma Qlen_nat (l : list Q) n :
  List.length l = n -> (Stat.Qlen l == inject_Z (Z.of_nat n))%Q.
Proof. intros <-. reflexivity. Qed.









Lemma centered_length r : List.length (Stat.centered r) = List.length r.
Proof. unfold Stat.centered. apply length_map. Qed.




(* ------------------------------------------------------------------ *)
(** ** Sums and dot products over the rationals *)

Module StatFacts.
Import Stat.
Local Open Scope Q_scope.



Lemma dotQ_map_self (f : Q -> Q) r :
  dotQ (map f r) (map f r) == Qsum (map (fun x => f x * f x) r).
Proof.
  unfold dotQ. induction r as [|x r IH]; simpl; [ring | rewrite IH; ring].
Qed.




Lemma sample_cov_diag r : sample_cov r r == sample_var r.
Proof.
  unfold sample_cov, sample_var, centered.
  rewrite (dotQ_map_self (fun x => x - mean r)).
  unfold Qdiv. ring.
Qed.

End StatFacts.

(* ------------------------------------------------------------------ *)
(** ** [cov_matrix] on finite inputs *)





Lemma matmul_transposed_length bs F N dA dX :
  List.length (data (matmul_transposed (mkTensor (bs ++ [F; N]) dA)
                                       (mkTensor (bs ++ [F; N]) dX)))
  = numel bs * (F * F).
Proof.
  unfold matmul_transposed. simpl.
  rewrite shape_FN_last2, shape_FN_batch.
  rewrite (@flat_map_length_uniform _ _ _ (F * F)), length_seq; [reflexivity|].
  intros b _. rewrite (@flat_map_length_uniform _ _ _ F), length_seq; [reflexivity|].
  intros i _. now rewrite length_map, length_seq.
Qed.



(* ------------------------------------------------------------------ *)
(** ** Which inputs the kernel rejects *)

Lemma bind_not_raise {A B} (r : result A) (k : A -> result B) e :
  (forall e', r = Raise e' -> e' <> e) ->
  (forall a, r = Ok a -> k a <> Raise e) ->
  bind r k <> Raise e.
Proof.
  intros Hr Hk. destruct r as [a|e']; simpl.
  - now apply Hk.
  - intros E. inversion E. now apply (Hr e').
Qed.

Lemma py_truediv_raises a b e :
  py_truediv a b = Raise e -> e = ZeroDivisionError.
Proof. unfold py_truediv. destruct (Qis0 b); intros E; now inversion E. Qed.

Lemma outer_raises v w e : outer v w = Raise e -> e = RuntimeError.
Proof.
  unfold outer. destruct (shape v) as [|n [|? ?]]; destruct (shape w) as [|m [|? ?]];
    intros E; now inversion E.
Qed.

Lemma cov_matrix_ShapeError X :
  cov_matrix X = Raise ShapeError <-> ndim X < 2.
Proof.
  unfold cov_matrix. destruct (ndim X <? 2) eqn:E.
  - apply Nat.ltb_lt in E. tauto.
  - apply Nat.ltb_ge in E. split; [|lia]. intros H. exfalso. revert H.
    apply bind_not_raise.
    + intros e' He'. apply py_truediv_raises in He'. subst. discriminate.
    + discriminate.
Qed.

Lemma corr_matrix_sq_ShapeError X eps :
  corr_matrix_sq X eps = Raise ShapeError <-> ndim X < 2.
Proof.
  unfold corr_matrix_sq. destruct (ndim X <? 2) eqn:E.
  - apply Nat.ltb_lt in E. tauto.
  - apply Nat.ltb_ge in E. split; [|lia]. intros H. exfalso. revert H.
    apply bind_not_raise.
    + intros e' He'. apply outer_raises in He'. subst. discriminate.
    + intros vv _. apply bind_not_raise.
      * intros e' He'. apply py_truediv_raises in He'. subst. discriminate.
      * discriminate.
Qed.

(** A 2-D input whose sample axis has length 1 reaches the Python
    division [1./(N-1)], which raises. *)
Lemma cov_matrix_one_sample F d :
  cov_matrix (mkTensor [F; 1] d) = Raise ZeroDivisionError.
Proof. reflexivity. Qed.

Lemma corr_matrix_sq_one_sample F d eps :
  corr_matrix_sq (mkTensor [F; 1] d) eps = Raise ZeroDivisionError.
Proof. reflexivity. Qed.

(** A 2-D input whose sample axis is empty is not rejected. *)
Lemma cov_matrix_no_sample F d :
  exists Y, cov_matrix (mkTensor [F; 0] d) = Ok Y /\ shape Y = [F; F].
Proof. eexists. split; reflexivity. Qed.

(** C3 (as amended). [cov_matrix] and [corr_matrix_sq] fail with the
    [ShapeError] exception if and only if the input has fewer than two
    axes; the length of the sample axis plays no part in that guard. *)
Theorem kernel_ShapeError_iff_ndim X eps :
  (cov_matrix X = Raise ShapeError <-> ndim X < 2) /\
  (corr_matrix_sq X eps = Raise ShapeError <-> ndim X < 2).
Proof. split; [apply cov_matrix_ShapeError | apply corr_matrix_sq_ShapeError]. Qed.

(** C3, counterexample.  A 2 x 0 input has a sample axis of length 0,
    yet [cov_matrix] returns a (2 x 2) value; a 2 x 1 input raises a
    division error, not [ShapeError]. *)
Lemma kernel_ShapeError_short_axis_counterexample :
  let X0 := mkTensor [2; 0] [] in
  let X1 := mkTensor [2; 1] [Fin 1%Q; Fin 2%Q] in
  (ndim X0 = 2 /\ dim_last (shape X0) = 0 /\
   cov_matrix X0 = Ok (mkTensor [2; 2] [Fin 0%Q; Fin 0%Q; Fin 0%Q; Fin 0%Q]) /\
   ~ (cov_matrix X0 = Raise ShapeError <->
      ndim X0 < 2 \/ dim_last (shape X0) < 2)) /\
  (ndim X1 = 2 /\ dim_last (shape X1) = 1 /\
   cov_matrix X1 = Raise ZeroDivisionError /\
   corr_matrix_sq X1 None = Raise ZeroDivisionError /\
   ~ (cov_matrix X1 = Raise ShapeError <->
      ndim X1 < 2 \/ dim_last (shape X1) < 2)).
Proof.
  cbv zeta. repeat split; try reflexivity.
  - intros [_ H]. discriminate H. right. unfold dim_last. simpl. lia.
  - intros [_ H]. discriminate H. right. unfold dim_last. simpl. lia.
Qed.

(* ------------------------------------------------------------------ *)
(** ** Variance of a centered row *)

Module VarFacts.
Import Stat.
Local Open Scope Q_scope.

Lemma Qsum_map_ext (f g : Q -> Q) l :
  (forall x, f x == g x) -> Qsum (map f l) == Qsum (map g l).
Proof.
  intros H. induction l as [|x l IH]; simpl; [reflexivity | rewrite H, IH; reflexivity].
Qed.

Lemma Qsum_map_sub m l :
  Qsum (map (fun x => x - m) l) == Qsum l - Qlen l * m.
Proof.
  unfold Qlen. induction l as [|x l IH].
  - simpl. ring.
  - cbn [map Qsum List.length]. rewrite IH, Nat2Z.inj_succ. unfold Z.succ.
    rewrite inject_Z_plus. change (inject_Z 1) with 1. ring.
Qed.

Lemma mean_centered r : r <> [] -> mean (centered r) == 0.
Proof.
  intros H. pose proof (Qlen_pos H) as Hp.
  unfold mean at 1, centered. rewrite Qsum_map_sub.
  unfold mean. unfold Qlen at 3. rewrite length_map. fold (Qlen r).
  field. lra.
Qed.

(** [torch.var] on a row already centered: its divisor is
    [max(0, N - 1)], computed on naturals. *)
Definition var_code (c : list Q) : Q :=
  Qsum (map (fun x => (x - mean c) * (x - mean c)) c)
  / inject_Z (Z.of_nat (List.length c - 1)).

Lemma var_code_centered r :
  (2 <= List.length r)%nat -> var_code (centered r) == sample_var r.
Proof.
  intros H. assert (Hr : r <> []) by (intros E; subst; simpl in H; lia).
  unfold var_code, sample_var. rewrite centered_length.
  unfold centered at 1 3. rewrite map_map.
  rewrite (Qsum_map_ext _ (fun x => (x - mean r) * (x - mean r))).
  - unfold Qlen. rewrite Nat2Z.inj_sub by lia. unfold Z.sub.
    rewrite inject_Z_plus. reflexivity.
  - intros x. fold (centered r). rewrite (mean_centered Hr). ring.
Qed.







End VarFacts.

(* ------------------------------------------------------------------ *)
(** ** [corr_matrix_sq] on finite 2-D inputs *)






Section CorrEntries.
Variables (F N : nat) (d : list Q) (e : Q).
Hypothesis HN : 2 <= N.
Hypothesis Hd : List.length d = F * N.

Let xc (i : nat) : list Q := Stat.centered (row N d i).
Let D (i j : nat) : Q := Stat.dotQ (xc i) (xc j).
Let s : Q := (1 / ((inject_Z (Z.of_nat N) - 1) * (inject_Z (Z.of_nat N) - 1)))%Q.


End CorrEntries.





(* ------------------------------------------------------------------ *)
(** ** [decov_criterion] *)

Lemma list_by_nth {A} (l : list A) d :
  l = map (fun p => nth p l d) (seq 0 (List.length l)).
Proof.
  apply (nth_ext _ _ d d).
  - now rewrite length_map, length_seq.
  - intros p Hp. now rewrite nth_map_seq.
Qed.















(* ------------------------------------------------------------------ *)
(** ** The Cauchy-Schwarz inequality for dot products *)

Module CauchySchwarz.
Import Stat.
Local Open Scope Q_scope.






End CauchySchwarz.

(* ------------------------------------------------------------------ *)
(** ** Bounds on the entries of [corr_matrix_sq] *)

Module CorrBounds.
Import Stat.
Local Open Scope Q_scope.


(** Entry [(i, j)] as [corr_matrix_sq] computes it. *)
Definition corr_entry (N : nat) (e : Q) (a b : list Q) : Q :=
  (1 / ((inject_Z (Z.of_nat N) - 1) * (inject_Z (Z.of_nat N) - 1)))
  * (dotQ (centered a) (centered b) * dotQ (centered a) (centered b)
     / ((VarFacts.var_code (centered a) + e) * (VarFacts.var_code (centered b) + e))).


End CorrBounds.


(* ------------------------------------------------------------------ *)
(** ** [decorr_criterion] and [halfcorr_criterion] *)



(** The buffer of [X[:, h:]] for a 2-D [F x N] buffer. *)
Definition slicedQ {A} (h N F : nat) (d : list A) : list A :=
  flat_map (fun i => skipn h (row N d i)) (seq 0 F).


Lemma slice_axis1_2d h F N (dat : list scalar) :
  slice_axis1_from h (mkTensor [F; N] dat)
  = Ok (mkTensor [F; N - h] (slicedQ h N F dat)).
Proof.
  unfold slice_axis1_from, slicedQ. cbn [shape data numel fold_right].
  now rewrite !Nat.mul_1_r.
Qed.





Lemma halfcorr_criterion_2d F N dat eps :
  halfcorr_criterion (mkTensor [F; N] dat) eps
  = decorr_criterion (mkTensor [F; N - round_half N]
                        (slicedQ (round_half N) N F dat)) eps.
Proof.
  unfold halfcorr_criterion, shape_last. cbn [shape bind].
  change (dim_last [F; N]) with N. rewrite slice_axis1_2d. reflexivity.
Qed.





(** On an input with fewer than two axes the two correlation criteria
    fail differently: [decorr_criterion] passes on the kernel's
    [ShapeError], while [halfcorr_criterion] fails earlier, on its own
    indexing, with an [IndexError]. *)
Theorem criteria_on_short_shapes X eps :
  ndim X < 2 ->
  decorr_criterion X eps = Raise ShapeError /\
  halfcorr_criterion X eps = Raise IndexError.
Proof.
intros H. split.
- unfold decorr_criterion.
  rewrite (proj2 (corr_matrix_sq_ShapeError X _) H). reflexivity.
- unfold halfcorr_criterion, shape_last, slice_axis1_from. unfold ndim in H.
  destruct (shape X) as [|n [|m sh]]; simpl in H; try lia; reflexivity.
Qed.

Lemma criteria_on_short_shapes_witness :
  decorr_criterion (mkTensor [3] (map Fin [1; 2; 3]%Q)) None = Raise ShapeError /\
  halfcorr_criterion (mkTensor [3] (map Fin [1; 2; 3]%Q)) None = Raise IndexError.
Proof.
apply (@criteria_on_short_shapes (mkTensor [3] (map Fin [1; 2; 3]%Q)) None).
unfold ndim. simpl. lia.
Defined.

(* ------------------------------------------------------------------ *)
(** ** Restriction consistency of [halfcorr_criterion] *)




(* ------------------------------------------------------------------ *)
(** ** [RelabeledSubset] *)

(** The source of random permutations behind [torch.randperm]: a
    generator state and a draw that returns a permutation of
    [0 .. n-1] together with the advanced state. *)
Class RandPerm (G : Type) : Type := {
  randperm : nat -> G -> list nat * G;
  randperm_perm : forall n g, Permutation (fst (randperm n g)) (seq 0 n)
}.

(** A generator for examples: its draw reverses [0 .. n-1] and counts
    the draws made. *)
#[export] Instance counting_generator : RandPerm nat := {
  randperm n g := (rev (seq 0 n), S g);
  randperm_perm n g := Permutation_sym (Permutation_rev (seq 0 n))
}.

Module Sampler.

(** The three configuration arguments, each a union in the source. *)
Inductive size_arg : Type :=
| SizeAll                       (* ['all'] *)
| SizeInt (k : Z).

Inductive classes_arg : Type :=
| ClassesAll                    (* ['all'] *)
| ClassesList (cs : list Z).

Inductive config_arg : Type :=
| CfgStr (s : string)
| CfgInt (k : Z)
| CfgOther.                     (* any other Python value: a float, a list, ... *)

Section WithTypes.
(** [Image]: what the dataset stores and what [transform] returns.
    [Label]: the Python values item access returns as labels. *)
Variables (Image Label : Type).
Context {G : Type} {RP : RandPerm G}.

(** The base dataset: its samples, read through [data] and [targets],
    and its [class_to_idx] dictionary. *)
Record dataset : Type := mkDataset {
  samples : list (Image * Z);
  class_to_idx : list (string * Z)
}.
Definition ds_data (ds : dataset) : list Image := map fst (samples ds).
Definition ds_targets (ds : dataset) : list Z := map snd (samples ds).

(** The object under construction: an attribute is [None] until it is
    assigned. *)
Record obj : Type := mkObj {
  self_class_inds : option classes_arg;
  self_class_size : option size_arg;
  self_data : option (list Image);
  self_targets : option (list Z);
  self_targets2 : option (option (list Z));
  self_transform : option (option (Image -> Image));
  self_target_transform : option (option (Z -> Label))
}.

Definition empty_obj : obj := mkObj None None None None None None None.

Record state : Type := mkState { self : obj; gen : G }.

Definition M (A : Type) : Type := state -> result A * state.

Definition ret {A} (a : A) : M A := fun s => (Ok a, s).
Definition mbind {A B} (m : M A) (k : A -> M B) : M B :=
  fun s => match m s with
           | (Ok a, s') => k a s'
           | (Raise e, s') => (Raise e, s')
           end.
Definition raise {A} (e : exn) : M A := fun s => (Raise e, s).
Definition lift {A} (r : result A) : M A := fun s => (r, s).
Definition assign (f : obj -> obj) : M unit :=
  fun s => (Ok tt, mkState (f (self s)) (gen s)).
Definition draw_randperm (n : nat) : M (list nat) :=
  fun s => let (p, g') := randperm n (gen s) in (Ok p, mkState (self s) g').

Notation "x <-- m ;;; k" := (mbind m (fun x => k))
  (at level 61, m at next level, right associativity).
Notation "m ;;; k" := (mbind m (fun _ => k))
  (at level 61, right associativity).

Definition set_class_inds v : M unit :=
  assign (fun o => mkObj (Some v) (self_class_size o) (self_data o) (self_targets o)
                         (self_targets2 o) (self_transform o) (self_target_transform o)).
Definition set_class_size v : M unit :=
  assign (fun o => mkObj (self_class_inds o) (Some v) (self_data o) (self_targets o)
                         (self_targets2 o) (self_transform o) (self_target_transform o)).
Definition set_data v : M unit :=
  assign (fun o => mkObj (self_class_inds o) (self_class_size o) (Some v) (self_targets o)
                         (self_targets2 o) (self_transform o) (self_target_transform o)).
Definition set_targets v : M unit :=
  assign (fun o => mkObj (self_class_inds o) (self_class_size o) (self_data o) (Some v)
                         (self_targets2 o) (self_transform o) (self_target_transform o)).
Definition set_targets2 v : M unit :=
  assign (fun o => mkObj (self_class_inds o) (self_class_size o) (self_data o) (self_targets o)
                         (Some v) (self_transform o) (self_target_transform o)).
Definition set_transform v : M unit :=
  assign (fun o => mkObj (self_class_inds o) (self_class_size o) (self_data o) (self_targets o)
                         (self_targets2 o) (Some v) (self_target_transform o)).
Definition set_target_transform v : M unit :=
  assign (fun o => mkObj (self_class_inds o) (self_class_size o) (self_data o) (self_targets o)
                         (self_targets2 o) (self_transform o) (Some v)).

(** [torch.where(targets == c)[0]]: the positions holding [c], ascending. *)
Definition where_eq (targets : list Z) (c : Z) : list nat :=
  filter (fun i => Z.eqb (nth i targets 0%Z) c) (seq 0 (List.length targets)).

(** [l[:k]] for a Python integer [k]. *)
Definition slice_to {A} (k : Z) (l : list A) : list A :=
  if (0 <=? k)%Z then firstn (Z.to_nat k) l
  else firstn (List.length l - Z.to_nat (- k)) l.

(** [torch.cat]: refuses an empty list of tensors. *)
Definition torch_cat {A} (ts : list (list A)) : result (list A) :=
  match ts with
  | [] => Raise RuntimeError
  | _ => Ok (concat ts)
  end.

(** [torch.index_select(t, 0, inds)] and [t[inds]]: a fresh tensor;
    an index out of range raises. *)
Fixpoint index_select {A} (t : list A) (inds : list nat) : result (list A) :=
  match inds with
  | [] => Ok []
  | i :: inds' =>
      match nth_error t i with
      | Some x => r <- index_select t inds' ;; Ok (x :: r)
      | None => Raise IndexError
      end
  end.

(** [torch.arange(n)] *)
Definition arange (n : nat) : list Z := map Z.of_nat (seq 0 n).

(** [t % k] on an integer tensor: a zero divisor raises. *)
Definition remainder (t : list Z) (k : Z) : result (list Z) :=
  match t with
  | [] => Ok []
  | _ => if (k =? 0)%Z then Raise RuntimeError
         else Ok (map (fun x => (x mod k)%Z) t)
  end.

(** Lines 37-44: the classes taken and, per class, the positions kept. *)
Definition class_list (ds : dataset) (class_inds : classes_arg) : list Z :=
  match class_inds with
  | ClassesAll => map snd (class_to_idx ds)
  | ClassesList cs => cs
  end.

Definition inds_by_class (ds : dataset) (class_size : size_arg)
    (class_inds : classes_arg) : list (list nat) :=
  let inds_by_class := map (where_eq (ds_targets ds)) (class_list ds class_inds) in
  match class_size with
  | SizeAll => inds_by_class
  | SizeInt k => map (slice_to k) inds_by_class
  end.

(** Lines 32-52: the selection step.  Returns [self.targets]. *)
Definition select (ds : dataset) (class_size : size_arg) (class_inds : classes_arg)
  : M (list Z) :=
  match class_inds, class_size with
  | ClassesAll, SizeAll =>
      set_data (ds_data ds) ;;;
      set_targets (ds_targets ds) ;;;
      ret (ds_targets ds)
  | _, _ =>
      subset_inds <-- lift (torch_cat (inds_by_class ds class_size class_inds)) ;;;
      perm <-- draw_randperm (List.length subset_inds) ;;;
      subset_inds <-- lift (index_select subset_inds perm) ;;;
      data <-- lift (index_select (ds_data ds) subset_inds) ;;;
      set_data data ;;;
      targets <-- lift (index_select (ds_targets ds) subset_inds) ;;;
      set_targets targets ;;;
      ret targets
  end.

(** Lines 54-72: the secondary labels, from [self.targets]. *)
Definition relabel (targets : list Z) (target2_config : config_arg) : M unit :=
  let equals s := match target2_config with
              | CfgStr s' => String.eqb s' s
              | _ => false
              end in
  if equals "index"%string then
    set_targets2 (Some (arange (List.length targets)))
  else if equals "shuffle"%string then
    perm <-- draw_randperm (List.length targets) ;;;
    t2 <-- lift (index_select targets perm) ;;;
    set_targets2 (Some t2)
  else
    match target2_config with
    | CfgInt k =>
        set_targets2 (Some (arange (List.length targets))) ;;;
        perm <-- draw_randperm (List.length targets) ;;;
        r <-- lift (remainder (arange (List.length targets)) k) ;;;
        t2 <-- lift (index_select r perm) ;;;
        set_targets2 (Some t2)
    | _ =>
        if equals "none"%string then set_targets2 None
        else raise ConfigError
    end.

(** [RelabeledSubset.__init__] *)
Definition init (ds : dataset) (class_size : size_arg) (class_inds : classes_arg)
    (target2_config : config_arg)
    (transform : option (Image -> Image))
    (target_transform : option (Z -> Label)) : M unit :=
  set_class_inds class_inds ;;;
  set_class_size class_size ;;;
  targets <-- select ds class_size class_inds ;;;
  relabel targets target2_config ;;;
  set_transform transform ;;;
  set_target_transform target_transform.

(** Running the constructor on a fresh object. *)
Definition construct ds class_size class_inds target2_config transform
    target_transform (g : G) : result unit * state :=
  init ds class_size class_inds target2_config transform target_transform
       (mkState empty_obj g).

(** A constructed subset, as [__len__] and [__getitem__] read it. *)
Record RelabeledSubset : Type := mkSubset {
  data : list Image;
  targets : list Z;
  targets2 : option (list Z);
  transform : option (Image -> Image);
  target_transform : option (Z -> Label)
}.

(** The object a successful construction leaves behind. *)
Definition built (o : obj) : option RelabeledSubset :=
  match self_data o, self_targets o, self_targets2 o,
        self_transform o, self_target_transform o with
  | Some d, Some t, Some t2, Some tr, Some ttr => Some (mkSubset d t t2 tr ttr)
  | _, _, _, _, _ => None
  end.

Definition len (s : RelabeledSubset) : nat := List.length (targets s).

(** [t[idx]] for a Python integer: negative indices count from the
    end, anything out of range raises. *)
Definition py_index {A} (t : list A) (idx : Z) : result A :=
  let n := Z.of_nat (List.length t) in
  let i := if (idx <? 0)%Z then (n + idx)%Z else idx in
  if ((0 <=? i) && (i <? n))%bool%Z then
    match nth_error t (Z.to_nat i) with
    | Some x => Ok x
    | None => Raise IndexError
    end
  else Raise IndexError.

Inductive item : Type :=
| Item2 (img : Image) (target : Label)
| Item3 (img : Image) (target target2 : Label).

(** [RelabeledSubset.__getitem__]; [of_int] is a label that no
    [target_transform] touched, the integer as it is. *)
Definition getitem (of_int : Z -> Label) (s : RelabeledSubset) (idx : Z)
  : result item :=
  img <- py_index (data s) idx ;;
  target <- py_index (targets s) idx ;;
  let img := match transform s with Some f => f img | None => img end in
  let target := match target_transform s with
                | Some f => f target
                | None => of_int target
                end in
  match targets2 s with
  | None => Ok (Item2 img target)
  | Some t2 =>
      target2 <- py_index t2 idx ;;
      let target2 := match target_transform s with
                     | Some f => f target2
                     | None => of_int target2
                     end in
      Ok (Item3 img target target2)
  end.


(** *** The torch operators of the sampler *)

Lemma firstn_incl {A} n (l : list A) x : In x (firstn n l) -> In x l.
Proof.
revert l; induction n as [|n IH]; intros [|a l] H; simpl in *; try contradiction.
destruct H as [H|H]; [now left | right; now apply IH].
Qed.

Lemma slice_to_incl {A} k (l : list A) x : In x (slice_to k l) -> In x l.
Proof. unfold slice_to. destruct (0 <=? k)%Z; apply firstn_incl. Qed.

Lemma where_eq_spec t c i :
  In i (where_eq t c) <-> i < List.length t /\ nth i t 0%Z = c.
Proof.
unfold where_eq. rewrite filter_In, in_seq, Z.eqb_eq. intuition lia.
Qed.

Lemma where_eq_snoc t x c :
  where_eq (t ++ [x]) c
  = where_eq t c ++ (if Z.eqb x c then [List.length t] else []).
Proof.
unfold where_eq. rewrite length_app. simpl List.length.
rewrite Nat.add_1_r, seq_S, filter_app. simpl. f_equal.
- apply filter_ext_in. intros i Hi. apply in_seq in Hi.
  now rewrite app_nth1 by lia.
- rewrite app_nth2, Nat.sub_diag by lia. reflexivity.
Qed.

Lemma where_eq_length t c :
  List.length (where_eq t c) = count_occ Z.eq_dec t c.
Proof.
induction t as [|x t IH] using rev_ind; [reflexivity|].
rewrite where_eq_snoc, length_app, count_occ_app, IH. f_equal.
simpl. destruct (Z.eq_dec x c) as [->|Hne].
- now rewrite Z.eqb_refl.
- apply Z.eqb_neq in Hne. now rewrite Hne.
Qed.

Lemma index_select_nth {A} (t : list A) inds d :
  Forall (fun i => i < List.length t) inds ->
  index_select t inds = Ok (map (fun i => nth i t d) inds).
Proof.
induction 1 as [|i inds Hi _ IH]; [reflexivity|].
simpl. rewrite (nth_error_nth' t d Hi), IH. reflexivity.
Qed.

Lemma index_select_ok {A} (t : list A) inds :
  Forall (fun i => i < List.length t) inds ->
  exists sel, index_select t inds = Ok sel /\
              Forall2 (fun i x => nth_error t i = Some x) inds sel.
Proof.
induction 1 as [|i inds Hi _ (sel & E & F2)].
- exists []. split; [reflexivity | constructor].
- apply nth_error_Some in Hi. destruct (nth_error t i) as [x|] eqn:Ex; [|congruence].
  exists (x :: sel). simpl. rewrite Ex, E. split; [reflexivity | now constructor].
Qed.

Lemma index_select_map {A B} (f : A -> B) (t : list A) inds sel :
  index_select t inds = Ok sel ->
  index_select (map f t) inds = Ok (map f sel).
Proof.
revert sel; induction inds as [|i inds IH]; intros sel H; simpl in *.
- now inversion H.
- rewrite nth_error_map. destruct (nth_error t i) as [x|]; [|discriminate].
  destruct (index_select t inds) as [r|e]; [|discriminate].
  simpl in *. inversion H; subst. now rewrite (IH r eq_refl).
Qed.

Lemma index_select_permutation {A} (t : list A) p d :
  Permutation p (seq 0 (List.length t)) ->
  index_select t p = Ok (map (fun i => nth i t d) p) /\
  Permutation (map (fun i => nth i t d) p) t.
Proof.
intros Hp. split.
- apply index_select_nth. apply (Permutation_Forall (Permutation_sym Hp)).
  apply Forall_forall. intros i Hi. apply in_seq in Hi. lia.
- apply Permutation_trans with (map (fun i => nth i t d) (seq 0 (List.length t))).
  + now apply Permutation_map.
  + rewrite <- list_by_nth. apply Permutation_refl.
Qed.

(** *** The selection step *)

(** The classes are given, as [select] needs them for [torch.cat]. *)
Definition selectable (ds : dataset) (class_size : size_arg)
    (class_inds : classes_arg) : Prop :=
  match class_inds, class_size with
  | ClassesAll, SizeAll => True
  | _, _ => class_list ds class_inds <> []
  end.

(** The base positions [select] chooses among, before it permutes them. *)
Definition selected_indices (ds : dataset) (class_size : size_arg)
    (class_inds : classes_arg) : list nat :=
  match class_inds, class_size with
  | ClassesAll, SizeAll => seq 0 (List.length (samples ds))
  | _, _ => concat (inds_by_class ds class_size class_inds)
  end.

Definition with_selection (o : obj) (d : list Image) (t : list Z) : obj :=
  mkObj (self_class_inds o) (self_class_size o) (Some d) (Some t)
        (self_targets2 o) (self_transform o) (self_target_transform o).

Lemma inds_by_class_bound ds cs ci :
  Forall (fun i => i < List.length (samples ds)) (concat (inds_by_class ds cs ci)).
Proof.
apply Forall_forall. intros i Hi. apply in_concat in Hi as (l & Hl & Hi).
assert (H : exists c, In i (where_eq (ds_targets ds) c)).
{ unfold inds_by_class in Hl. destruct cs as [|k].
  - apply in_map_iff in Hl as (c & <- & _). now exists c.
  - apply in_map_iff in Hl as (l' & <- & Hl').
    apply in_map_iff in Hl' as (c & <- & _). exists c. now apply slice_to_incl in Hi. }
destruct H as (c & Hc). apply where_eq_spec in Hc as [Hc _].
unfold ds_targets in Hc. now rewrite length_map in Hc.
Qed.

Lemma select_general (ds : dataset) (s : state) (l : list nat) :
  Forall (fun i => i < List.length (samples ds)) l ->
  exists inds sel,
    (subset_inds <-- lift (Ok l) ;;;
     perm <-- draw_randperm (List.length subset_inds) ;;;
     subset_inds <-- lift (index_select subset_inds perm) ;;;
     data <-- lift (index_select (ds_data ds) subset_inds) ;;;
     set_data data ;;;
     targets <-- lift (index_select (ds_targets ds) subset_inds) ;;;
     set_targets targets ;;;
     ret targets) s
    = (Ok (map snd sel),
       mkState (with_selection (self s) (map fst sel) (map snd sel))
               (snd (randperm (List.length l) (gen s)))) /\
    Permutation inds l /\
    Forall2 (fun i x => nth_error (samples ds) i = Some x) inds sel.
Proof.
intros Hl. unfold mbind at 1. unfold lift at 1. unfold mbind at 1.
unfold draw_randperm.
pose proof (randperm_perm (List.length l) (gen s)) as Hp.
destruct (randperm (List.length l) (gen s)) as [p g'] eqn:Er. simpl in Hp.
destruct (index_select_permutation l 0 Hp) as [E1 P1].
set (inds := map (fun i => nth i l 0) p) in *.
assert (Hb : Forall (fun i => i < List.length (samples ds)) inds)
  by (apply (Permutation_Forall (Permutation_sym P1)); exact Hl).
destruct (index_select_ok (samples ds) Hb) as (sel & E2 & F2).
exists inds, sel. split; [|split; assumption].
unfold mbind, lift. cbn [fst snd self gen]. rewrite E1.
unfold ds_data, ds_targets.
rewrite (index_select_map fst _ _ E2), (index_select_map snd _ _ E2).
reflexivity.
Qed.


Lemma torch_cat_ok {A} (ts : list (list A)) :
  ts <> [] -> torch_cat ts = Ok (concat ts).
Proof. destruct ts; [congruence | reflexivity]. Qed.

Lemma inds_by_class_nonempty ds cs ci :
  class_list ds ci <> [] -> inds_by_class ds cs ci <> [].
Proof.
unfold inds_by_class. destruct (class_list ds ci); [congruence|].
intros _. destruct cs; discriminate.
Qed.

Lemma nth_error_seq_all {A} (l : list A) :
  Forall2 (fun i x => nth_error l i = Some x) (seq 0 (List.length l)) l.
Proof.
induction l as [|a l IH] using rev_ind; [constructor|].
rewrite length_app. simpl List.length. rewrite Nat.add_1_r, seq_S.
apply Forall2_app.
- eapply Forall2_impl; [|exact IH]. intros i x H. simpl in H.
  rewrite nth_error_app1; [assumption|]. apply nth_error_Some. congruence.
- constructor; [|constructor]. simpl.
  now rewrite nth_error_app2, Nat.sub_diag by lia.
Qed.

Lemma select_spec ds cs ci (s : state) :
  selectable ds cs ci ->
  exists inds sel g',
    select ds cs ci s
    = (Ok (map snd sel),
       mkState (with_selection (self s) (map fst sel) (map snd sel)) g') /\
    Permutation inds (selected_indices ds cs ci) /\
    Forall2 (fun i x => nth_error (samples ds) i = Some x) inds sel.
Proof.
intros Hsel.
assert (General : class_list ds ci <> [] ->
  exists inds sel g',
    (subset_inds <-- lift (torch_cat (inds_by_class ds cs ci)) ;;;
     perm <-- draw_randperm (List.length subset_inds) ;;;
     subset_inds <-- lift (index_select subset_inds perm) ;;;
     data <-- lift (index_select (ds_data ds) subset_inds) ;;;
     set_data data ;;;
     targets <-- lift (index_select (ds_targets ds) subset_inds) ;;;
     set_targets targets ;;;
     ret targets) s
    = (Ok (map snd sel),
       mkState (with_selection (self s) (map fst sel) (map snd sel)) g') /\
    Permutation inds (concat (inds_by_class ds cs ci)) /\
    Forall2 (fun i x => nth_error (samples ds) i = Some x) inds sel).
{ intros Hne. rewrite (torch_cat_ok (inds_by_class_nonempty ds cs ci Hne)).
  destruct (select_general ds s (inds_by_class_bound ds cs ci)) as (inds & sel & E & P & F2).
  exists inds, sel. eexists. split; [exact E | split; assumption]. }
destruct ci as [|cl]; destruct cs as [|k]; simpl in Hsel.
- exists (seq 0 (List.length (samples ds))), (samples ds), (gen s).
  split; [reflexivity|]. split; [apply Permutation_refl | apply nth_error_seq_all].
- exact (General Hsel).
- exact (General Hsel).
- exact (General Hsel).
Qed.

(** *** The secondary labels *)


Definition with_targets2 (o : obj) (v : option (list Z)) : obj :=
  mkObj (self_class_inds o) (self_class_size o) (self_data o) (self_targets o)
        (Some v) (self_transform o) (self_target_transform o).


Lemma index_select_arange_mod n k p :
  (k <> 0)%Z -> Permutation p (seq 0 n) ->
  exists t2,
    (r <- remainder (arange n) k ;; index_select r p) = Ok t2 /\
    Permutation t2 (map (fun x => (x mod k)%Z) (arange n)).
Proof.
intros Hk Hp. set (base := map (fun x => (x mod k)%Z) (arange n)).
assert (Hlen : List.length base = n)
  by (unfold base, arange; now rewrite !length_map, length_seq).
assert (HR : remainder (arange n) k = Ok base).
{ unfold remainder, base. destruct (arange n) eqn:E; [reflexivity|].
  apply Z.eqb_neq in Hk. now rewrite Hk. }
rewrite HR. simpl bind. rewrite <- Hlen in Hp.
destruct (index_select_permutation base 0%Z Hp) as [E P].
eexists. split; [exact E | exact P].
Qed.

Lemma relabel_int targets k (s : state) :
  (k <> 0)%Z ->
  exists t2 g',
    relabel targets (CfgInt k) s
    = (Ok tt, mkState (with_targets2 (self s) (Some t2)) g') /\
    Permutation t2 (map (fun x => (x mod k)%Z) (arange (List.length targets))).
Proof.
intros Hk. unfold relabel. cbn match.
unfold mbind, set_targets2, assign, draw_randperm, lift. cbn [self gen].
pose proof (randperm_perm (List.length targets) (gen s)) as Hp.
destruct (randperm (List.length targets) (gen s)) as [p g'] eqn:Er. simpl in Hp.
destruct (@index_select_arange_mod (List.length targets) k p Hk Hp) as (t2 & E & P).
exists t2, g'. split; [|exact P].
destruct (remainder (arange (List.length targets)) k) as [r|e]; simpl in E; [|discriminate].
cbn [self gen]. rewrite E. reflexivity.
Qed.


(** *** Running [__init__] *)

Lemma mbind_ok {A B} (m : M A) (k : A -> M B) s a s' :
  m s = (Ok a, s') -> mbind m k s = k a s'.
Proof. intros H. unfold mbind. now rewrite H. Qed.

Lemma mbind_raise {A B} (m : M A) (k : A -> M B) s e s' :
  m s = (Raise e, s') -> mbind m k s = (Raise e, s').
Proof. intros H. unfold mbind. now rewrite H. Qed.

(** The object once lines 29-30 have run. *)
Definition configured (cs : size_arg) (ci : classes_arg) : obj :=
  mkObj (Some ci) (Some cs) None None None None None.

Lemma construct_steps ds cs ci cfg tr ttr g :
  construct ds cs ci cfg tr ttr g
  = (targets <-- select ds cs ci ;;;
     relabel targets cfg ;;;
     set_transform tr ;;;
     set_target_transform ttr) (mkState (configured cs ci) g).
Proof. reflexivity. Qed.

(** The attributes [relabel] leaves alone. *)
Definition same_but_targets2 (o o' : obj) : Prop :=
  self_class_inds o' = self_class_inds o /\
  self_class_size o' = self_class_size o /\
  self_data o' = self_data o /\
  self_targets o' = self_targets o /\
  self_transform o' = self_transform o /\
  self_target_transform o' = self_target_transform o.

Lemma same_but_targets2_refl o : same_but_targets2 o o.
Proof. repeat split. Qed.

Lemma same_but_targets2_set o v : same_but_targets2 o (with_targets2 o v).
Proof. repeat split. Qed.

Lemma relabel_frame targets cfg (s : state) :
  exists r s',
    relabel targets cfg s = (r, s') /\
    same_but_targets2 (self s) (self s') /\
    (r = Ok tt ->
     exists v, self_targets2 (self s') = Some v /\
               (v = None <-> cfg = CfgStr "none")).
Proof.
unfold relabel. destruct cfg as [str|k|].
- destruct (String.eqb str "index") eqn:Ei.
  { apply String.eqb_eq in Ei. subst str.
    eexists _, _. split; [reflexivity|]. split; [apply same_but_targets2_set|].
    intros _. eexists. split; [reflexivity|]. split; discriminate. }
  destruct (String.eqb str "shuffle") eqn:Es.
  { apply String.eqb_eq in Es. subst str.
    unfold mbind, draw_randperm, lift, set_targets2, assign.
    destruct (randperm (List.length targets) (gen s)) as [p g'].
    destruct (index_select targets p) as [t2|e]; cbn [self gen].
    - eexists _, _. split; [reflexivity|]. split; [apply same_but_targets2_set|].
      intros _. eexists. split; [reflexivity|]. split; discriminate.
    - eexists _, _. split; [reflexivity|]. split; [apply same_but_targets2_refl|].
      discriminate. }
  destruct (String.eqb str "none") eqn:En.
  + apply String.eqb_eq in En. subst str.
    eexists _, _. split; [reflexivity|]. split; [apply same_but_targets2_set|].
    intros _. eexists. split; [reflexivity|]. split; reflexivity.
  + eexists _, _. split; [reflexivity|]. split; [apply same_but_targets2_refl|].
    discriminate.
- cbn match. unfold mbind, draw_randperm, lift, set_targets2, assign. cbn [self gen].
  destruct (randperm (List.length targets) (gen s)) as [p g'].
  destruct (remainder (arange (List.length targets)) k) as [r|e]; cbn [self gen].
  + destruct (index_select r p) as [t2|e]; cbn [self gen].
    * eexists _, _. split; [reflexivity|]. split; [repeat split|].
      intros _. eexists. split; [reflexivity|]. split; discriminate.
    * eexists _, _. split; [reflexivity|]. split; [repeat split|]. discriminate.
  + eexists _, _. split; [reflexivity|]. split; [repeat split|]. discriminate.
- eexists _, _. split; [reflexivity|]. split; [apply same_but_targets2_refl|].
  discriminate.
Qed.

Lemma construct_outcome ds cs ci cfg tr ttr g :
  selectable ds cs ci ->
  let r := construct ds cs ci cfg tr ttr g in
  exists inds sel,
    Permutation inds (selected_indices ds cs ci) /\
    Forall2 (fun i x => nth_error (samples ds) i = Some x) inds sel /\
    self_data (self (snd r)) = Some (map fst sel) /\
    self_targets (self (snd r)) = Some (map snd sel) /\
    (fst r = Ok tt ->
     exists t2, built (self (snd r))
                = Some (mkSubset (map fst sel) (map snd sel) t2 tr ttr) /\
                (t2 = None <-> cfg = CfgStr "none")).
Proof.
intros Hsel r. unfold r. rewrite construct_steps.
destruct (@select_spec ds cs ci (mkState (configured cs ci) g) Hsel)
  as (inds & sel & g1 & Es & P & F2).
exists inds, sel. split; [exact P|]. split; [exact F2|].
erewrite mbind_ok; [|exact Es].
destruct (relabel_frame (map snd sel) cfg
            (mkState (with_selection (self (mkState (configured cs ci) g))
                                     (map fst sel) (map snd sel)) g1))
  as (rr & s' & Er & (_ & _ & Hd & Ht & Htr & Httr) & Hok).
destruct rr as [[]|e].
- erewrite mbind_ok; [|exact Er]. cbn. destruct s' as [o' g']. cbn in *.
  split; [exact Hd|]. split; [exact Ht|]. intros _.
  destruct (Hok eq_refl) as (v & Hv & Hnone). exists v. split; [|exact Hnone].
  unfold built. cbn. now rewrite Hd, Ht, Hv.
- erewrite mbind_raise; [|exact Er]. cbn [fst snd].
  split; [exact Hd|]. split; [exact Ht|]. discriminate.
Qed.



(** *** Counting the selected classes *)

Lemma slice_to_nonneg {A} k (l : list A) :
  (0 <= k)%Z -> slice_to k l = firstn (Z.to_nat k) l.
Proof. intros H. unfold slice_to. apply Z.leb_le in H. now rewrite H. Qed.

Lemma selected_labels (l : list (Image * Z)) inds sel :
  Forall2 (fun i x => nth_error l i = Some x) inds sel ->
  map snd sel = map (fun i => nth i (map snd l) 0%Z) inds.
Proof.
induction 1 as [|i x inds sel Hx _ IH]; [reflexivity|].
simpl. rewrite IH. f_equal.
apply (map_nth_error snd) in Hx. symmetry. now apply nth_error_nth.
Qed.

Lemma labels_of_kept t c n :
  map (fun i => nth i t 0%Z) (firstn n (where_eq t c))
  = repeat c (Nat.min n (count_occ Z.eq_dec t c)).
Proof.
rewrite <- where_eq_length, <- length_firstn.
assert (H : forall i, In i (firstn n (where_eq t c)) -> nth i t 0%Z = c).
{ intros i Hi. apply firstn_incl in Hi. now apply where_eq_spec in Hi. }
induction (firstn n (where_eq t c)) as [|i l IH]; [reflexivity|].
simpl. rewrite H by (now left). f_equal. apply IH. intros j Hj. apply H. now right.
Qed.

Lemma count_occ_repeat c n x :
  count_occ Z.eq_dec (repeat c n) x = if Z.eq_dec x c then n else 0.
Proof.
destruct (Z.eq_dec x c) as [E|E].
- now apply count_occ_repeat_eq.
- now apply count_occ_repeat_neq.
Qed.

(** C8. With a positive cap [class_size = k] and two distinct classes
    [class_inds = [c1, c2]], whatever the remaining arguments: the
    positions selected are a permutation of the first [k] positions of
    class [c1] followed by the first [k] positions of class [c2] (each
    list in base-dataset order); the object's data and targets are the
    base samples at those positions; when construction succeeds these are
    the subset's data and targets; and the targets hold
    [min k (number of base items of class c)] items of each selected
    class [c] and none of any other class. *)
Theorem class_cap_selection ds k c1 c2 cfg tr ttr g :
  (0 < k)%Z -> c1 <> c2 ->
  let r := construct ds (SizeInt k) (ClassesList [c1; c2]) cfg tr ttr g in
  let kept c := firstn (Z.to_nat k) (where_eq (ds_targets ds) c) in
  exists inds sel,
    Permutation inds (kept c1 ++ kept c2) /\
    Forall2 (fun i x => nth_error (samples ds) i = Some x) inds sel /\
    self_data (self (snd r)) = Some (map fst sel) /\
    self_targets (self (snd r)) = Some (map snd sel) /\
    (fst r = Ok tt ->
     exists t2, built (self (snd r))
                = Some (mkSubset (map fst sel) (map snd sel) t2 tr ttr)) /\
    forall c,
      count_occ Z.eq_dec (map snd sel) c
      = if Z.eq_dec c c1 then Nat.min (Z.to_nat k) (count_occ Z.eq_dec (ds_targets ds) c)
        else if Z.eq_dec c c2 then Nat.min (Z.to_nat k) (count_occ Z.eq_dec (ds_targets ds) c)
        else 0.
Proof.
intros Hk Hne r kept.
assert (Hsel : selectable ds (SizeInt k) (ClassesList [c1; c2])) by (simpl; discriminate).
destruct (@construct_outcome ds (SizeInt k) (ClassesList [c1; c2]) cfg tr ttr g Hsel)
  as (inds & sel & P & F2 & Hd & Ht & Hok).
fold r in Hd, Ht, Hok.
assert (Hidx : selected_indices ds (SizeInt k) (ClassesList [c1; c2]) = kept c1 ++ kept c2).
{ unfold selected_indices, inds_by_class, class_list. simpl.
  rewrite app_nil_r, !slice_to_nonneg by lia. reflexivity. }
rewrite Hidx in P.
exists inds, sel. split; [exact P|]. split; [exact F2|].
split; [exact Hd|]. split; [exact Ht|]. split.
- intros E. destruct (Hok E) as (t2 & Hb & _). now exists t2.
- intros c. rewrite (@selected_labels (samples ds) inds sel F2). fold (ds_targets ds).
  pose proof (Permutation_map (fun i => nth i (ds_targets ds) 0%Z) P) as PM.
  rewrite (proj1 (Permutation_count_occ Z.eq_dec _ _) PM c).
  rewrite map_app, count_occ_app. unfold kept.
  rewrite !labels_of_kept, !count_occ_repeat.
  destruct (Z.eq_dec c c1) as [E1|E1]; destruct (Z.eq_dec c c2) as [E2|E2];
    subst; try congruence; lia.
Qed.


(** *** The integer scheme: [(arange(M) % K)[perm]] *)

Lemma arange_succ n : arange (S n) = arange n ++ [Z.of_nat n].
Proof. unfold arange. now rewrite seq_S, map_app. Qed.

Lemma arange_length n : List.length (arange n) = n.
Proof. unfold arange. now rewrite length_map, length_seq. Qed.

Lemma count_mod_arange (K : Z) (M : nat) (v : Z) :
  (0 < K)%Z -> (0 <= v < K)%Z ->
  Z.of_nat (count_occ Z.eq_dec (map (fun x => (x mod K)%Z) (arange M)) v)
  = (Z.of_nat M / K + (if v <? Z.of_nat M mod K then 1 else 0))%Z.
Proof.
intros HK Hv. induction M as [|M IH].
- change (Z.of_nat (count_occ Z.eq_dec (map (fun x => (x mod K)%Z) (arange 0)) v))
    with 0%Z.
  change (Z.of_nat 0) with 0%Z. rewrite Z.div_0_l, Z.mod_0_l by lia.
  destruct (v <? 0)%Z eqn:E; [apply Z.ltb_lt in E; lia | reflexivity].
- rewrite arange_succ, map_app, count_occ_app, Nat2Z.inj_add, IH.
  rewrite Nat2Z.inj_succ. unfold Z.succ. simpl count_occ.
  set (m := Z.of_nat M) in *. assert (Hm : (0 <= m)%Z) by (unfold m; lia).
  pose proof (Z.mod_pos_bound m K HK) as Hr.
  pose proof (Z.mod_pos_bound (m + 1) K HK) as Hr'.
  pose proof (Z.div_mod m K ltac:(lia)) as Dm.
  pose proof (Z.div_mod (m + 1) K ltac:(lia)) as Dm'.
  set (q := (m / K)%Z) in *. set (r := (m mod K)%Z) in *.
  set (q' := ((m + 1) / K)%Z) in *. set (r' := ((m + 1) mod K)%Z) in *.
  assert (HE : (K * (q' - q) = r + 1 - r')%Z) by lia.
  assert (Hq : (-1 < q' - q < 2)%Z) by nia.
  assert (Hcase : (q' = q /\ r' = r + 1)%Z \/ (q' = q + 1 /\ r' = 0 /\ r = K - 1)%Z).
  { assert (Hd : (q' - q = 0 \/ q' - q = 1)%Z) by lia.
    destruct Hd as [Hd|Hd]; rewrite Hd in HE; [left | right]; lia. }
  destruct (Z.eq_dec r v) as [E|E];
    destruct (v <? r)%Z eqn:E1; destruct (v <? r')%Z eqn:E2;
    try apply Z.ltb_lt in E1; try apply Z.ltb_ge in E1;
    try apply Z.ltb_lt in E2; try apply Z.ltb_ge in E2;
    simpl; lia.
Qed.

Lemma mod_arange_range (K : Z) (M : nat) :
  (0 < K)%Z ->
  Forall (fun v => (0 <= v < K)%Z) (map (fun x => (x mod K)%Z) (arange M)).
Proof.
intros HK. apply Forall_forall. intros v Hv.
apply in_map_iff in Hv as (x & <- & _). now apply Z.mod_pos_bound.
Qed.

(** C9. With [target2_config] a positive integer [K] and a selection
    step that can run, construction succeeds; the subset of length [M]
    carries [M] secondary labels, all in [0 .. K-1], and each value [v]
    of that range appears [M / K] times, plus once more when
    [v < M mod K]: so either floor(M/K) or ceil(M/K) times, and exactly
    25 times each when [K = 4] and [M = 100]. *)
Theorem integer_config_balanced ds cs ci (K : Z) tr ttr g :
  (0 < K)%Z -> selectable ds cs ci ->
  let r := construct ds cs ci (CfgInt K) tr ttr g in
  exists sub t2,
    fst r = Ok tt /\
    built (self (snd r)) = Some sub /\
    targets2 sub = Some t2 /\
    List.length t2 = len sub /\
    Forall (fun v => (0 <= v < K)%Z) t2 /\
    forall v, (0 <= v < K)%Z ->
      let M := Z.of_nat (len sub) in
      let n := Z.of_nat (count_occ Z.eq_dec t2 v) in
      (n = M / K + (if v <? M mod K then 1 else 0))%Z /\
      (n = M / K \/ n = (M + K - 1) / K)%Z /\
      (K = 4%Z -> M = 100%Z -> n = 25%Z).
Proof.
intros HK Hsel r. unfold r. rewrite construct_steps.
destruct (@select_spec ds cs ci (mkState (configured cs ci) g) Hsel)
  as (inds & sel & g1 & Es & _ & _).
erewrite mbind_ok; [|exact Es].
destruct (@relabel_int (map snd sel) K
            (mkState (with_selection (self (mkState (configured cs ci) g))
                                     (map fst sel) (map snd sel)) g1)
            ltac:(lia)) as (t2 & g2 & Er & P).
erewrite mbind_ok; [|exact Er].
exists (mkSubset (map fst sel) (map snd sel) (Some t2) tr ttr), t2.
split; [reflexivity|]. split; [reflexivity|]. split; [reflexivity|].
unfold len. cbn [targets].
set (M := List.length (map snd sel)) in *.
split; [|split].
- rewrite (Permutation_length P), length_map. apply arange_length.
- apply (Permutation_Forall (Permutation_sym P)). now apply mod_arange_range.
- intros v Hv. cbv zeta.
  rewrite (proj1 (Permutation_count_occ Z.eq_dec _ _) P v).
  pose proof (count_mod_arange M HK Hv) as Hc.
  set (n := Z.of_nat (count_occ Z.eq_dec _ v)) in *.
  split; [exact Hc|]. split.
  + pose proof (Z.mod_pos_bound (Z.of_nat M) K HK) as Hr.
    destruct (v <? Z.of_nat M mod K)%Z eqn:E.
    * right. apply Z.ltb_lt in E. rewrite Hc.
      pose proof (Z.div_mod (Z.of_nat M) K ltac:(lia)) as D1.
      pose proof (Z.div_mod (Z.of_nat M + K - 1) K ltac:(lia)) as D2.
      pose proof (Z.mod_pos_bound (Z.of_nat M + K - 1) K HK) as Hr2.
      nia.
    * left. lia.
  + intros HK4 HM. rewrite Hc, HM, HK4.
    change (100 mod 4)%Z with 0%Z. change (100 / 4)%Z with 25%Z.
    destruct (v <? 0)%Z eqn:E; [apply Z.ltb_lt in E; lia | reflexivity].
Qed.

(** *** The two string schemes, and a selection that cannot run *)

Lemma construct_needs_classes ds cs ci cfg tr ttr g :
  fst (construct ds cs ci cfg tr ttr g) = Ok tt -> selectable ds cs ci.
Proof.
intros H. unfold selectable.
assert (Fail : class_list ds ci = [] ->
  (subset_inds <-- lift (torch_cat (inds_by_class ds cs ci)) ;;;
   perm <-- draw_randperm (List.length subset_inds) ;;;
   subset_inds <-- lift (index_select subset_inds perm) ;;;
   data <-- lift (index_select (ds_data ds) subset_inds) ;;;
   set_data data ;;;
   targets <-- lift (index_select (ds_targets ds) subset_inds) ;;;
   set_targets targets ;;;
   ret targets) (mkState (configured cs ci) g)
  = (Raise RuntimeError, mkState (configured cs ci) g)).
{ intros E. unfold inds_by_class. rewrite E. destruct cs; reflexivity. }
rewrite construct_steps in H.
destruct ci as [|cl]; destruct cs as [|k]; try exact I; intros E;
  (erewrite mbind_raise in H; [discriminate H | exact (Fail E)]).
Qed.


Lemma relabel_shuffle targets (s : state) :
  exists t2 g',
    relabel targets (CfgStr "shuffle") s
    = (Ok tt, mkState (with_targets2 (self s) (Some t2)) g') /\
    Permutation t2 targets.
Proof.
unfold relabel. cbn match. change (String.eqb "shuffle" "index") with false.
change (String.eqb "shuffle" "shuffle") with true. cbv iota.
unfold mbind, draw_randperm, lift, set_targets2, assign.
pose proof (randperm_perm (List.length targets) (gen s)) as Hp.
destruct (randperm (List.length targets) (gen s)) as [p g'] eqn:Er. simpl in Hp.
destruct (index_select_permutation targets 0%Z Hp) as [E P].
eexists _, g'. cbn [self gen]. rewrite E. split; [reflexivity | exact P].
Qed.


(** The 'shuffle' scheme: construction succeeds and the secondary labels
    are a permutation of the subset's own primary labels. *)
Theorem shuffle_config_permutes_targets ds cs ci tr ttr g :
  selectable ds cs ci ->
  let r := construct ds cs ci (CfgStr "shuffle") tr ttr g in
  exists sub t2,
    fst r = Ok tt /\
    built (self (snd r)) = Some sub /\
    targets2 sub = Some t2 /\
    Permutation t2 (targets sub).
Proof.
intros Hsel r. unfold r. rewrite construct_steps.
destruct (@select_spec ds cs ci (mkState (configured cs ci) g) Hsel)
  as (inds & sel & g1 & Es & _ & _).
erewrite mbind_ok; [|exact Es].
destruct (@relabel_shuffle (map snd sel)
            (mkState (with_selection (self (mkState (configured cs ci) g))
                                     (map fst sel) (map snd sel)) g1))
  as (t2 & g2 & Er & P).
erewrite mbind_ok; [|exact Er].
exists (mkSubset (map fst sel) (map snd sel) (Some t2) tr ttr), t2.
split; [reflexivity|]. split; [reflexivity|]. split; [reflexivity | exact P].
Qed.

(** With [class_size] and [class_inds] both 'all' the subset is the whole
    base dataset in its order, and the selection draws nothing from the
    generator. *)
Theorem select_all_keeps_order ds (s : state) :
  select ds SizeAll ClassesAll s
  = (Ok (ds_targets ds),
     mkState (with_selection (self s) (ds_data ds) (ds_targets ds)) (gen s)).
Proof. reflexivity. Qed.

(** *** Item access *)


(** *** Any class list, any cap *)

(** [inds[:class_size]] when a cap is given, [inds] otherwise. *)
Definition capped {A} (cs : size_arg) (l : list A) : list A :=
  match cs with
  | SizeAll => l
  | SizeInt k => slice_to k l
  end.

(** How many of [n] positions a cap keeps: the first [k] for [k >= 0],
    all but the last [-k] for a negative [k]. *)
Definition kept_count (cs : size_arg) (n : nat) : nat :=
  match cs with
  | SizeAll => n
  | SizeInt k => if (0 <=? k)%Z then Nat.min (Z.to_nat k) n else n - Z.to_nat (- k)
  end.

Lemma inds_by_class_capped ds cs ci :
  inds_by_class ds cs ci
  = map (fun c => capped cs (where_eq (ds_targets ds) c)) (class_list ds ci).
Proof.
unfold inds_by_class, capped. destruct cs; [reflexivity | now rewrite map_map].
Qed.

Lemma capped_incl {A} cs (l : list A) x : In x (capped cs l) -> In x l.
Proof. destruct cs; [auto | apply slice_to_incl]. Qed.

Lemma capped_length {A} cs (l : list A) :
  List.length (capped cs l) = kept_count cs (List.length l).
Proof.
destruct cs as [|k]; [reflexivity|]. unfold capped, slice_to, kept_count.
destruct (0 <=? k)%Z; rewrite length_firstn; lia.
Qed.

Lemma labels_of_capped t cs c :
  map (fun i => nth i t 0%Z) (capped cs (where_eq t c))
  = repeat c (kept_count cs (count_occ Z.eq_dec t c)).
Proof.
rewrite <- where_eq_length, <- capped_length.
assert (H : forall i, In i (capped cs (where_eq t c)) -> nth i t 0%Z = c).
{ intros i Hi. apply capped_incl in Hi. now apply where_eq_spec in Hi. }
induction (capped cs (where_eq t c)) as [|i l IH]; [reflexivity|].
simpl. rewrite H by (now left). f_equal. apply IH. intros j Hj. apply H. now right.
Qed.

Lemma count_in_class_blocks t cs cl c :
  count_occ Z.eq_dec
    (map (fun i => nth i t 0%Z)
         (concat (map (fun c' => capped cs (where_eq t c')) cl))) c
  = count_occ Z.eq_dec cl c * kept_count cs (count_occ Z.eq_dec t c).
Proof.
induction cl as [|c' cl IH]; [reflexivity|].
cbn [map concat]. rewrite map_app, count_occ_app, IH, labels_of_capped, count_occ_repeat.
cbn [count_occ]. destruct (Z.eq_dec c c') as [->|Hne].
- destruct (Z.eq_dec c' c') as [_|C]; [lia | congruence].
- destruct (Z.eq_dec c' c) as [C|_]; [congruence | lia].
Qed.

Lemma length_class_blocks t cs cl :
  List.length (concat (map (fun c' => capped cs (where_eq t c')) cl))
  = list_sum (map (fun c' => kept_count cs (count_occ Z.eq_dec t c')) cl).
Proof.
induction cl as [|c' cl IH]; [reflexivity|].
cbn [map concat list_sum]. now rewrite length_app, IH, capped_length, where_eq_length.
Qed.

(** Whenever the selection is not all/all and the class list is not
    empty, whatever the remaining arguments: class [c] occurs among the
    subset's targets as many times as it is listed in the class list,
    times the number of its base positions the cap keeps.  So a class
    listed twice is taken twice, a class absent from the base dataset
    contributes nothing and raises nothing, and a negative cap drops the
    last positions of each class.  The subset's size is the sum of those
    numbers over the class list. *)
Theorem class_counts ds cs ci cfg tr ttr g :
  (cs <> SizeAll \/ ci <> ClassesAll) ->
  class_list ds ci <> [] ->
  let r := construct ds cs ci cfg tr ttr g in
  let base c := count_occ Z.eq_dec (ds_targets ds) c in
  exists sel,
    self_data (self (snd r)) = Some (map fst sel) /\
    self_targets (self (snd r)) = Some (map snd sel) /\
    (forall c, count_occ Z.eq_dec (map snd sel) c
               = count_occ Z.eq_dec (class_list ds ci) c * kept_count cs (base c)) /\
    List.length sel
    = list_sum (map (fun c => kept_count cs (base c)) (class_list ds ci)).
Proof.
intros Hnot Hne r base.
assert (Hsel : selectable ds cs ci).
{ unfold selectable. destruct ci; destruct cs; try exact Hne. destruct Hnot; congruence. }
assert (Hidx : selected_indices ds cs ci
               = concat (map (fun c => capped cs (where_eq (ds_targets ds) c))
                             (class_list ds ci))).
{ unfold selected_indices. rewrite <- inds_by_class_capped.
  destruct ci; destruct cs; try reflexivity. destruct Hnot; congruence. }
destruct (@construct_outcome ds cs ci cfg tr ttr g Hsel)
  as (inds & sel & P & F2 & Hd & Ht & _).
fold r in Hd, Ht. rewrite Hidx in P.
exists sel. split; [exact Hd|]. split; [exact Ht|]. split.
- intros c. rewrite (@selected_labels (samples ds) inds sel F2). fold (ds_targets ds).
  pose proof (Permutation_map (fun i => nth i (ds_targets ds) 0%Z) P) as PM.
  rewrite (proj1 (Permutation_count_occ Z.eq_dec _ _) PM c).
  apply count_in_class_blocks.
- rewrite <- (Forall2_length F2), (Permutation_length P). apply length_class_blocks.
Qed.

(** *** The arrays of a built subset, and item access by position *)

Lemma index_select_length {A} (t : list A) inds r :
  index_select t inds = Ok r -> List.length r = List.length inds.
Proof.
revert r; induction inds as [|i inds IH]; intros r H; simpl in H.
- now inversion H.
- destruct (nth_error t i); [|discriminate].
  destruct (index_select t inds) as [r'|e]; [|discriminate].
  simpl in H. inversion H; subst. simpl. f_equal. now apply IH.
Qed.

Lemma randperm_length n g : List.length (fst (randperm n g)) = n.
Proof.
rewrite (Permutation_length (randperm_perm n g)). apply length_seq.
Qed.

Lemma remainder_length t k r :
  remainder t k = Ok r -> List.length r = List.length t.
Proof.
unfold remainder. destruct t as [|x t].
- intros H. now inversion H.
- destruct (k =? 0)%Z; [discriminate|]. intros H. inversion H; subst r.
  simpl. now rewrite length_map.
Qed.

Lemma relabel_length targets cfg (s s' : state) t2 :
  relabel targets cfg s = (Ok tt, s') ->
  self_targets2 (self s') = Some (Some t2) ->
  List.length t2 = List.length targets.
Proof.
unfold relabel. destruct cfg as [str|k|].
- destruct (String.eqb str "index").
  { intros H. inversion H; subst s'. cbn. intros E. inversion E.
    apply arange_length. }
  destruct (String.eqb str "shuffle").
  { unfold mbind, draw_randperm, lift, set_targets2, assign.
    pose proof (randperm_length (List.length targets) (gen s)) as Hl.
    destruct (randperm (List.length targets) (gen s)) as [p g']. simpl in Hl.
    destruct (index_select targets p) as [r|e] eqn:Er; cbn [self gen];
      [|discriminate].
    intros H. inversion H; subst s'. cbn. intros E. inversion E; subst t2.
    now rewrite (index_select_length _ _ Er). }
  destruct (String.eqb str "none"); [|discriminate].
  intros H. inversion H; subst s'. cbn. discriminate.
- cbn match. unfold mbind, draw_randperm, lift, set_targets2, assign. cbn [self gen].
  pose proof (randperm_length (List.length targets) (gen s)) as Hl.
  destruct (randperm (List.length targets) (gen s)) as [p g']. simpl in Hl.
  destruct (remainder (arange (List.length targets)) k) as [r|e] eqn:Erem;
    cbn [self gen]; [|discriminate].
  destruct (index_select r p) as [r2|e] eqn:Er; cbn [self gen]; [|discriminate].
  intros H. inversion H; subst s'. cbn. intros E. inversion E; subst t2.
  now rewrite (index_select_length _ _ Er).
- discriminate.
Qed.

(** What a successful construction went through. *)
Lemma construct_ok_inv ds cs ci cfg tr ttr g :
  fst (construct ds cs ci cfg tr ttr g) = Ok tt ->
  exists inds sel s1 s' v,
    Permutation inds (selected_indices ds cs ci) /\
    Forall2 (fun i x => nth_error (samples ds) i = Some x) inds sel /\
    relabel (map snd sel) cfg s1 = (Ok tt, s') /\
    self_targets2 (self s') = Some v /\
    (v = None <-> cfg = CfgStr "none") /\
    built (self (snd (construct ds cs ci cfg tr ttr g)))
    = Some (mkSubset (map fst sel) (map snd sel) v tr ttr).
Proof.
intros Hok. pose proof (construct_needs_classes _ _ _ _ _ _ _ Hok) as Hsel.
rewrite construct_steps in *.
destruct (@select_spec ds cs ci (mkState (configured cs ci) g) Hsel)
  as (inds & sel & g1 & Es & P & F2).
erewrite mbind_ok in *; try exact Es.
set (s1 := mkState (with_selection (self (mkState (configured cs ci) g))
                                   (map fst sel) (map snd sel)) g1) in *.
destruct (relabel_frame (map snd sel) cfg s1)
  as (rr & s' & Er & (_ & _ & Hd & Ht & _ & _) & Hv).
destruct rr as [[]|e].
- destruct (Hv eq_refl) as (v & Hv2 & Hnone).
  exists inds, sel, s1, s', v. split; [exact P|]. split; [exact F2|].
  split; [exact Er|]. split; [exact Hv2|]. split; [exact Hnone|].
  erewrite mbind_ok; [|exact Er]. destruct s' as [o' g']. cbn in *.
  unfold built. cbn. now rewrite Hd, Ht, Hv2.
- erewrite mbind_raise in Hok; [|exact Er]. discriminate Hok.
Qed.

(** The arrays of a built subset have one length: [data], [targets] and,
    when there is one, [targets2] all hold [len] entries, whatever the
    configuration that built it. *)
Theorem built_arrays_same_length ds cs ci cfg tr ttr g sub :
  fst (construct ds cs ci cfg tr ttr g) = Ok tt ->
  built (self (snd (construct ds cs ci cfg tr ttr g))) = Some sub ->
  List.length (data sub) = len sub /\
  (forall t2, targets2 sub = Some t2 -> List.length t2 = len sub) /\
  (targets2 sub = None <-> cfg = CfgStr "none").
Proof.
intros Hok Hb.
destruct (construct_ok_inv _ _ _ _ _ _ _ Hok)
  as (inds & sel & s1 & s' & v & _ & _ & Er & Hv & Hnone & Hbuilt).
rewrite Hbuilt in Hb. inversion Hb; subst sub. unfold len. cbn.
split; [now rewrite !length_map|]. split; [|exact Hnone].
intros t2 E. subst v. apply (relabel_length _ _ _ Er Hv).
Qed.

Lemma py_index_in_range {A} (t : list A) idx :
  (- Z.of_nat (List.length t) <= idx < Z.of_nat (List.length t))%Z ->
  exists x,
    py_index t idx = Ok x /\
    nth_error t (Z.to_nat (if (idx <? 0)%Z then Z.of_nat (List.length t) + idx
                           else idx)) = Some x.
Proof.
intros H. unfold py_index.
set (n := Z.of_nat (List.length t)) in *.
set (i := if (idx <? 0)%Z then (n + idx)%Z else idx).
assert (Hi : (0 <= i < n)%Z).
{ unfold i. destruct (idx <? 0)%Z eqn:E;
    [apply Z.ltb_lt in E | apply Z.ltb_ge in E]; lia. }
assert (Hb : ((0 <=? i)%Z && (i <? n)%Z)%bool = true).
{ apply andb_true_iff. split; [apply Z.leb_le | apply Z.ltb_lt]; lia. }
rewrite Hb.
destruct (nth_error t (Z.to_nat i)) as [x|] eqn:Ex.
- exists x. split; reflexivity.
- apply nth_error_None in Ex. unfold n in Hi. lia.
Qed.

Lemma py_index_out_of_range {A} (t : list A) idx :
  ~ (- Z.of_nat (List.length t) <= idx < Z.of_nat (List.length t))%Z ->
  py_index t idx = Raise IndexError.
Proof.
intros H. unfold py_index.
set (n := Z.of_nat (List.length t)) in *.
set (i := if (idx <? 0)%Z then (n + idx)%Z else idx).
assert (Hb : ((0 <=? i)%Z && (i <? n)%Z)%bool = false).
{ apply andb_false_iff. unfold i.
  destruct (idx <? 0)%Z eqn:E; [apply Z.ltb_lt in E | apply Z.ltb_ge in E].
  - left. apply Z.leb_gt. lia.
  - right. apply Z.ltb_ge. lia. }
now rewrite Hb.
Qed.

(** Item access on a built subset.  An index [idx] with
    [-len <= idx < len] names position [idx], or [len + idx] when
    negative; the item returned there is a sample of the base dataset,
    image and label still paired: the transformed image with its own
    transformed label (left as it is when no [target_transform] was
    given), a secondary label added exactly when the configuration was
    not 'none'.  Every other index raises [IndexError]. *)
Theorem getitem_by_position of_int ds cs ci cfg tr ttr g sub :
  fst (construct ds cs ci cfg tr ttr g) = Ok tt ->
  built (self (snd (construct ds cs ci cfg tr ttr g))) = Some sub ->
  let n := Z.of_nat (len sub) in
  let on_image img := match tr with Some h => h img | None => img end in
  let on_label l := match ttr with Some f => f l | None => of_int l end in
  (forall idx, (- n <= idx < n)%Z ->
     exists img l,
       In (img, l) (samples ds) /\
       nth_error (targets sub)
                 (Z.to_nat (if (idx <? 0)%Z then n + idx else idx)%Z) = Some l /\
       ((cfg = CfgStr "none" /\
         getitem of_int sub idx = Ok (Item2 (on_image img) (on_label l))) \/
        (cfg <> CfgStr "none" /\
         exists l2, getitem of_int sub idx
                    = Ok (Item3 (on_image img) (on_label l) (on_label l2))))) /\
  (forall idx, ~ (- n <= idx < n)%Z -> getitem of_int sub idx = Raise IndexError).
Proof.
intros Hok Hb n on_image on_label.
destruct (construct_ok_inv _ _ _ _ _ _ _ Hok)
  as (inds & sel & s1 & s' & v & _ & F2 & Er & Hv & Hnone & Hbuilt).
rewrite Hbuilt in Hb. inversion Hb; subst sub. clear Hb.
unfold len in *. cbn [data targets targets2 transform target_transform] in *.
assert (Ld : List.length (map fst sel) = List.length (map snd sel))
  by now rewrite !length_map.
assert (L2 : forall t2, v = Some t2 -> List.length t2 = List.length (map snd sel)).
{ intros t2 E. subst v. apply (relabel_length _ _ _ Er Hv). }
assert (Hsel : forall x, In x sel -> In x (samples ds)).
{ clear -F2. induction F2 as [|i x inds sel Hx _ IH]; intros y Hy; [contradiction|].
  destruct Hy as [<-|Hy]; [now apply nth_error_In in Hx | now apply IH]. }
split.
- intros idx Hr. unfold n in Hr.
  assert (Hrs : (- Z.of_nat (List.length sel) <= idx < Z.of_nat (List.length sel))%Z)
    by (rewrite length_map in Hr; exact Hr).
  destruct (@py_index_in_range _ sel idx Hrs) as ([img l] & _ & Ex).
  set (pos := Z.to_nat (if (idx <? 0)%Z then (Z.of_nat (List.length sel) + idx)%Z
                        else idx)) in *.
  assert (Hd : py_index (map fst sel) idx = Ok img).
  { destruct (@py_index_in_range _ (map fst sel) idx) as (x & E & Ex').
    - now rewrite length_map.
    - rewrite length_map in Ex'. fold pos in Ex'.
      rewrite nth_error_map, Ex in Ex'. cbn in Ex'. inversion Ex'; subst. exact E. }
  assert (Htn : nth_error (map snd sel) pos = Some l)
    by (rewrite nth_error_map, Ex; reflexivity).
  assert (Ht : py_index (map snd sel) idx = Ok l).
  { destruct (@py_index_in_range _ (map snd sel) idx) as (x & E & Ex').
    - now rewrite length_map.
    - rewrite length_map in Ex'. fold pos in Ex'.
      rewrite Htn in Ex'. inversion Ex'; subst. exact E. }
  exists img, l. split; [apply Hsel; now apply nth_error_In in Ex|].
  split.
  { unfold n. rewrite length_map. exact Htn. }
  unfold getitem. cbn [data targets targets2 transform target_transform].
  rewrite Hd, Ht. cbn [bind].
  destruct v as [t2|].
  + right. split; [intros E; apply Hnone in E; discriminate|].
    destruct (@py_index_in_range _ t2 idx) as (l2 & E2 & _).
    { rewrite (L2 t2 eq_refl). exact Hr. }
    exists l2. rewrite E2. reflexivity.
  + left. split; [now apply Hnone | reflexivity].
- intros idx Hr. unfold getitem. cbn [data].
  rewrite py_index_out_of_range; [reflexivity|].
  rewrite Ld. exact Hr.
Qed.

(** The default selection, as the driver builds its test set
    ([class_size] and [class_inds] left at 'all', [target2_config =
    'none']): construction succeeds for every base dataset, draws
    nothing from the generator, and the subset is the base dataset in
    its own order; item [i] is the transformed [i]-th image with the
    [i]-th label. *)
Theorem default_subset_is_the_dataset of_int ds tr ttr g :
  let r := construct ds SizeAll ClassesAll (CfgStr "none") tr ttr g in
  let sub := mkSubset (ds_data ds) (ds_targets ds) None tr ttr in
  fst r = Ok tt /\
  gen (snd r) = g /\
  built (self (snd r)) = Some sub /\
  len sub = List.length (samples ds) /\
  forall i img l,
    nth_error (samples ds) i = Some (img, l) ->
    getitem of_int sub (Z.of_nat i)
    = Ok (Item2 (match tr with Some h => h img | None => img end)
                (match ttr with Some f => f l | None => of_int l end)).
Proof.
cbv zeta. split; [reflexivity|]. split; [reflexivity|]. split; [reflexivity|].
split; [unfold len, ds_targets; cbn; apply length_map|].
intros i img l Hx.
assert (Hi : i < List.length (samples ds)) by (apply nth_error_Some; congruence).
assert (Hidx : forall {A} (t : list A) x,
          List.length t = List.length (samples ds) ->
          nth_error t i = Some x -> py_index t (Z.of_nat i) = Ok x).
{ intros A t x Hl Hn. unfold py_index.
  assert (E : (Z.of_nat i <? 0)%Z = false) by (apply Z.ltb_ge; lia).
  rewrite E.
  assert (Hb : ((0 <=? Z.of_nat i)%Z && (Z.of_nat i <? Z.of_nat (List.length t))%Z)%bool
               = true).
  { apply andb_true_iff. split; [apply Z.leb_le | apply Z.ltb_lt]; lia. }
  rewrite Hb, Nat2Z.id, Hn. reflexivity. }
unfold getitem. cbn [data targets targets2 transform target_transform].
rewrite (Hidx _ (ds_data ds) img), (Hidx _ (ds_targets ds) l).
- reflexivity.
- unfold ds_targets. apply length_map.
- unfold ds_targets. rewrite nth_error_map, Hx. reflexivity.
- unfold ds_data. apply length_map.
- unfold ds_data. rewrite nth_error_map, Hx. reflexivity.
Qed.

End WithTypes.

(** *** A small base dataset: six images of classes 0, 1, 0, 2, 1, 0 *)

Definition toy : dataset nat :=
  mkDataset
    [(10, 0%Z); (11, 1%Z); (12, 0%Z); (13, 2%Z); (14, 1%Z); (15, 0%Z)]
    [("zero"%string, 0%Z); ("one"%string, 1%Z); ("two"%string, 2%Z)].



Lemma class_cap_selection_witness :
  let r := construct (Label := Z) toy (SizeInt 2) (ClassesList [0; 1]%Z)
                     (CfgStr "none") None None 0 in
  let kept c := firstn (Z.to_nat 2) (where_eq (ds_targets toy) c) in
  exists inds sel,
    Permutation inds (kept 0%Z ++ kept 1%Z) /\
    Forall2 (fun i x => nth_error (samples toy) i = Some x) inds sel /\
    self_data (self (snd r)) = Some (map fst sel) /\
    self_targets (self (snd r)) = Some (map snd sel) /\
    (fst r = Ok tt ->
     exists t2, built (self (snd r))
                = Some (mkSubset (map fst sel) (map snd sel) t2 None None)) /\
    forall c,
      count_occ Z.eq_dec (map snd sel) c
      = if Z.eq_dec c 0 then Nat.min (Z.to_nat 2) (count_occ Z.eq_dec (ds_targets toy) c)
        else if Z.eq_dec c 1 then Nat.min (Z.to_nat 2) (count_occ Z.eq_dec (ds_targets toy) c)
        else 0.
Proof.
apply (@class_cap_selection nat Z nat _ toy 2%Z 0%Z 1%Z (CfgStr "none") None None 0).
- reflexivity.
- discriminate.
Defined.

Lemma integer_config_balanced_witness :
  let r := construct (Label := Z) toy SizeAll ClassesAll (CfgInt 4) None None 0 in
  exists sub t2,
    fst r = Ok tt /\
    built (self (snd r)) = Some sub /\
    targets2 sub = Some t2 /\
    List.length t2 = len sub /\
    Forall (fun v => (0 <= v < 4)%Z) t2 /\
    forall v, (0 <= v < 4)%Z ->
      let M := Z.of_nat (len sub) in
      let n := Z.of_nat (count_occ Z.eq_dec t2 v) in
      (n = M / 4 + (if v <? M mod 4 then 1 else 0))%Z /\
      (n = M / 4 \/ n = (M + 4 - 1) / 4)%Z /\
      (4%Z = 4%Z -> M = 100%Z -> n = 25%Z).
Proof.
apply (@integer_config_balanced nat Z nat _ toy SizeAll ClassesAll 4%Z None None 0).
- reflexivity.
- exact I.
Defined.




Lemma shuffle_config_permutes_targets_witness :
  let r := construct (Label := Z) toy SizeAll ClassesAll (CfgStr "shuffle") None None 0 in
  exists sub t2,
    fst r = Ok tt /\
    built (self (snd r)) = Some sub /\
    targets2 sub = Some t2 /\
    Permutation t2 (targets sub).
Proof.
apply (@shuffle_config_permutes_targets nat Z nat _ toy SizeAll ClassesAll None None 0).
exact I.
Defined.

(** *** The further theorems on [toy] *)

Lemma class_counts_witness :
  let r := construct (Label := Z) toy (SizeInt (-1)) (ClassesList [0; 0; 7]%Z)
                     (CfgStr "none") None None 0 in
  let base c := count_occ Z.eq_dec (ds_targets toy) c in
  exists sel,
    self_data (self (snd r)) = Some (map fst sel) /\
    self_targets (self (snd r)) = Some (map snd sel) /\
    (forall c, count_occ Z.eq_dec (map snd sel) c
               = count_occ Z.eq_dec (class_list toy (ClassesList [0; 0; 7]%Z)) c
                 * kept_count (SizeInt (-1)) (base c)) /\
    List.length sel
    = list_sum (map (fun c => kept_count (SizeInt (-1)) (base c))
                    (class_list toy (ClassesList [0; 0; 7]%Z))).
Proof.
apply (@class_counts nat Z nat _ toy (SizeInt (-1)) (ClassesList [0; 0; 7]%Z)
         (CfgStr "none") None None 0).
- left. discriminate.
- discriminate.
Defined.

Definition toy_capped : RelabeledSubset nat Z :=
  mkSubset [14; 11; 12; 10] [1; 1; 0; 0]%Z (Some [0; 0; 1; 1]%Z) None None.

Lemma built_arrays_same_length_witness :
  List.length (data toy_capped) = len toy_capped /\
  (forall t2, targets2 toy_capped = Some t2 -> List.length t2 = len toy_capped) /\
  (targets2 toy_capped = None <-> CfgStr "shuffle" = CfgStr "none").
Proof.
apply (@built_arrays_same_length nat Z nat _ toy (SizeInt 2) (ClassesList [0; 1]%Z)
         (CfgStr "shuffle") None None 0 toy_capped).
- reflexivity.
- reflexivity.
Defined.

Lemma getitem_by_position_witness :
  let n := Z.of_nat (len toy_capped) in
  let on_image (img : nat) := img in
  let on_label (l : Z) := l in
  (forall idx, (- n <= idx < n)%Z ->
     exists img l,
       In (img, l) (samples toy) /\
       nth_error (targets toy_capped)
                 (Z.to_nat (if (idx <? 0)%Z then n + idx else idx)%Z) = Some l /\
       ((CfgStr "shuffle" = CfgStr "none" /\
         getitem (fun z => z) toy_capped idx = Ok (Item2 (on_image img) (on_label l))) \/
        (CfgStr "shuffle" <> CfgStr "none" /\
         exists l2, getitem (fun z => z) toy_capped idx
                    = Ok (Item3 (on_image img) (on_label l) (on_label l2))))) /\
  (forall idx, ~ (- n <= idx < n)%Z ->
     getitem (fun z => z) toy_capped idx = Raise IndexError).
Proof.
apply (@getitem_by_position nat Z nat _ (fun z => z) toy (SizeInt 2)
         (ClassesList [0; 1]%Z) (CfgStr "shuffle") None None 0 toy_capped).
- reflexivity.
- reflexivity.
Defined.

End Sampler.

(* ------------------------------------------------------------------ *)
(** ** The theorems at concrete inputs *)






(* ------------------------------------------------------------------ *)
(** ** What each kernel call does with each shape *)

Lemma shape_split (s : list nat) :
  2 <= List.length s ->
  s = batch_shape s ++ [dim_last2 s; dim_last s].
Proof.
  intros H. unfold batch_shape, dim_last2, dim_last.
  assert (Hs : s <> []) by (intros ->; simpl in H; lia).
  rewrite (app_removelast_last 0 Hs) at 1.
  assert (Hr : removelast s <> []).
  { intros E. rewrite (app_removelast_last 0 Hs), E in H. simpl in H. lia. }
  rewrite (app_removelast_last 0 Hr) at 1.
  now rewrite <- app_assoc.
Qed.

Lemma truediv_by_count (N : nat) :
  py_truediv 1 (inject_Z (Z.of_nat N - 1))
  = if N =? 1 then Raise ZeroDivisionError
    else Ok (Fin (1 / inject_Z (Z.of_nat N - 1))).
Proof.
  unfold py_truediv. destruct (N =? 1) eqn:E.
  - apply Nat.eqb_eq in E. subst. reflexivity.
  - apply Nat.eqb_neq in E. rewrite Qis0_false; [reflexivity|].
    change 0%Q with (inject_Z 0). rewrite inject_Z_injective. lia.
Qed.

Lemma truediv_by_count_sq (N : nat) :
  let d := (inject_Z (Z.of_nat N) - 1)%Q in
  py_truediv 1 (d * d)
  = if N =? 1 then Raise ZeroDivisionError else Ok (Fin (1 / (d * d))).
Proof.
  cbv zeta. unfold py_truediv. destruct (N =? 1) eqn:E.
  - apply Nat.eqb_eq in E. subst. reflexivity.
  - apply Nat.eqb_neq in E. rewrite Qis0_false; [reflexivity|].
    assert (G : ~ (inject_Z (Z.of_nat N) == 1)%Q).
    { change 1%Q with (inject_Z 1). rewrite inject_Z_injective. lia. }
    intros Z0. apply Qmult_integral in Z0. apply G. lra.
Qed.

Lemma numel_FF bs F : numel (bs ++ [F; F]) = numel bs * (F * F).
Proof. rewrite numel_app. simpl. lia. Qed.

Lemma cov_matrix_past_guard X :
  2 <= ndim X ->
  cov_matrix X
  = (s <- py_truediv 1 (inject_Z (Z.of_nat (dim_last (shape X)) - 1)) ;;
     Ok (matmul_transposed
           (tmap (fmul s) (sub_keepdim X (mean_keepdim X)))
           (sub_keepdim X (mean_keepdim X)))).
Proof. intros H. unfold cov_matrix. apply Nat.ltb_ge in H. now rewrite H. Qed.

Lemma cov_matrix_divides_by_zero X :
  2 <= ndim X -> dim_last (shape X) = 1 ->
  cov_matrix X = Raise ZeroDivisionError.
Proof.
  intros H2 HN. rewrite (cov_matrix_past_guard X H2), truediv_by_count.
  rewrite HN. reflexivity.
Qed.

Lemma cov_matrix_returns X :
  2 <= ndim X -> dim_last (shape X) <> 1 ->
  exists Y, cov_matrix X = Ok Y /\
    shape Y = batch_shape (shape X) ++ [dim_last2 (shape X); dim_last2 (shape X)] /\
    wf Y.
Proof.
  intros H2 HN. rewrite (cov_matrix_past_guard X H2), truediv_by_count.
  - apply Nat.eqb_neq in HN. rewrite HN. cbn [bind].
    eexists. split; [reflexivity|].
    unfold ndim in H2. pose proof (shape_split (shape X) H2) as Hs.
    set (bs := batch_shape (shape X)) in *. set (F := dim_last2 (shape X)) in *.
    set (N := dim_last (shape X)) in *.
    unfold tmap, sub_keepdim. cbn [shape data]. rewrite Hs.
    split.
    + unfold matmul_transposed. cbn [shape].
      now rewrite shape_FN_last2, shape_FN_batch.
    + unfold wf. rewrite matmul_transposed_length.
      unfold matmul_transposed. cbn [shape].
      now rewrite shape_FN_last2, shape_FN_batch, numel_FF.
Qed.

(** [cov_matrix] on any tensor, whatever its entries: fewer than two axes
    raise the shape exception; a last axis of length 1 raises the
    division by zero of [1./(N-1)]; every other input, an empty last
    axis included, yields a well-formed tensor in which the last two
    axes [F x N] have become [F x F]. *)
Theorem cov_matrix_outcome X :
  (ndim X < 2 -> cov_matrix X = Raise ShapeError) /\
  (2 <= ndim X -> dim_last (shape X) = 1 ->
   cov_matrix X = Raise ZeroDivisionError) /\
  (2 <= ndim X -> dim_last (shape X) <> 1 ->
   exists Y, cov_matrix X = Ok Y /\
     shape Y = batch_shape (shape X) ++ [dim_last2 (shape X); dim_last2 (shape X)] /\
     wf Y).
Proof.
  split; [apply cov_matrix_ShapeError|].
  split; [apply cov_matrix_divides_by_zero | apply cov_matrix_returns].
Qed.

Lemma outer_length n (v : list scalar) :
  List.length v = n ->
  List.length (flat_map (fun x => map (fun y => fmul x y) v) v) = n * n.
Proof.
  intros H. rewrite (@flat_map_length_uniform _ _ _ n), H; [reflexivity|].
  intros x _. now rewrite length_map.
Qed.

Lemma corr_matrix_sq_outer_raises X eps :
  3 <= ndim X -> corr_matrix_sq X eps = Raise RuntimeError.
Proof.
  unfold ndim. destruct X as [sh dat]. cbn [shape].
  intros H. unfold corr_matrix_sq, ndim. cbn [shape].
  assert (E : (List.length sh <? 2) = false) by (apply Nat.ltb_ge; lia).
  rewrite E. unfold outer, tmap, var_last. cbn [shape].
  destruct sh as [|a [|b [|c sh']]]; simpl in H; try lia.
  reflexivity.
Qed.

Lemma corr_matrix_sq_returns F N dat eps :
  N <> 1 ->
  exists Y, corr_matrix_sq (mkTensor [F; N] dat) eps = Ok Y /\
    shape Y = [F; F] /\ wf Y.
Proof.
  intros HN.
  unfold corr_matrix_sq, ndim. cbn [shape].
  change (List.length [F; N] <? 2) with false. cbv iota.
  change (dim_last [F; N]) with N.
  rewrite truediv_by_count_sq. apply Nat.eqb_neq in HN. rewrite HN.
  unfold outer, tmap, var_last, sub_keepdim, div_inplace. cbn [shape data bind].
  change (removelast [F; N]) with [F]. cbn [bind].
  eexists. split; [reflexivity|]. split.
  + unfold matmul_transposed. reflexivity.
  + unfold wf. cbn [shape data].
    rewrite length_map, map2_length, length_map.
    rewrite (matmul_transposed_length [] F N).
    rewrite outer_length with (n := F).
    * unfold matmul_transposed. cbn [shape].
      change (numel [] * (F * F)) with (1 * (F * F)).
      rewrite Nat.mul_1_l, Nat.min_id.
      change (numel (batch_shape [F; N] ++ [dim_last2 [F; N]; dim_last2 [F; N]]))
        with (F * (F * 1)).
      lia.
    * rewrite !length_map. unfold rows. cbn [shape].
      rewrite length_map, length_seq. simpl. lia.
Qed.

(** [corr_matrix_sq] on any tensor and any [eps]: fewer than two axes
    raise the shape exception; three or more reach [torch.outer] with a
    variance that is not 1-D, which raises; a 2-D input with one sample
    per row raises the division by zero of [1./(N-1.)**2]; every other
    2-D input [F x N] yields a well-formed [F x F] tensor. *)
Theorem corr_matrix_sq_outcome X eps :
  (ndim X < 2 -> corr_matrix_sq X eps = Raise ShapeError) /\
  (3 <= ndim X -> corr_matrix_sq X eps = Raise RuntimeError) /\
  (ndim X = 2 -> dim_last (shape X) = 1 ->
   corr_matrix_sq X eps = Raise ZeroDivisionError) /\
  (ndim X = 2 -> dim_last (shape X) <> 1 ->
   exists Y, corr_matrix_sq X eps = Ok Y /\
     shape Y = [dim_last2 (shape X); dim_last2 (shape X)] /\
     wf Y).
Proof.
  split; [apply corr_matrix_sq_ShapeError|].
  split; [apply corr_matrix_sq_outer_raises|].
  unfold ndim. destruct X as [sh dat]. cbn [shape].
  split.
  - intros H HN. destruct sh as [|F [|N [|c sh']]]; simpl in H; try lia.
    change (dim_last [F; N]) with N in HN. subst N. reflexivity.
  - intros H HN. destruct sh as [|F [|N [|c sh']]]; simpl in H; try lia.
    change (dim_last [F; N]) with N in HN. change (dim_last2 [F; N]) with F.
    now apply corr_matrix_sq_returns.
Qed.

(* ------------------------------------------------------------------ *)
(** ** Which 2-D batches each criterion can take *)

Lemma round_half_bounds n : n / 2 <= round_half n <= (n + 1) / 2.
Proof.
  unfold round_half.
  pose proof (Nat.div_mod_eq n 2) as D. pose proof (Nat.mod_upper_bound n 2) as M.
  pose proof (Nat.div_mod_eq (n + 1) 2) as D'.
  pose proof (Nat.mod_upper_bound (n + 1) 2) as M'.
  destruct (Nat.even n) eqn:E.
  - lia.
  - assert (Hodd : n mod 2 = 1).
    { rewrite <- Nat.negb_odd in E. apply negb_false_iff in E.
      apply Nat.odd_spec in E. destruct E as [k ->].
      rewrite Nat.add_comm, Nat.mul_comm, Nat.Div0.mod_add. reflexivity. }
    destruct (Nat.even (n / 2)); lia.
Qed.

Lemma kept_columns n :
  (n - round_half n = 1 <-> n = 1 \/ n = 2 \/ n = 3).
Proof.
  split.
  - intros H. pose proof (round_half_bounds n) as [L U].
    pose proof (Nat.div_mod_eq n 2) as D. pose proof (Nat.mod_upper_bound n 2) as M.
    pose proof (Nat.div_mod_eq (n + 1) 2) as D'.
    pose proof (Nat.mod_upper_bound (n + 1) 2) as M'.
    lia.
  - intros [-> | [-> | ->]]; reflexivity.
Qed.

Lemma decorr_criterion_outcome F N dat eps :
  (N = 1 -> decorr_criterion (mkTensor [F; N] dat) eps = Raise ZeroDivisionError) /\
  (N <> 1 -> exists v, decorr_criterion (mkTensor [F; N] dat) eps = Ok v).
Proof.
  unfold decorr_criterion. split; intros HN.
  - subst N. reflexivity.
  - destruct (@corr_matrix_sq_returns F N dat
                (Some match eps with Some e => e | None => criterion_eps_default end) HN)
      as (Y & HY & _).
    rewrite HY. cbn [bind]. eexists. reflexivity.
Qed.

Lemma decov_criterion_outcome B H dat :
  (B = 1 -> decov_criterion (mkTensor [B; H] dat) = Raise ZeroDivisionError) /\
  (B <> 1 -> exists v, decov_criterion (mkTensor [B; H] dat) = Ok v).
Proof.
  assert (Hnd : 2 <= ndim (transpose_all (mkTensor [B; H] dat))) by (cbv; lia).
  assert (Hl : dim_last (shape (transpose_all (mkTensor [B; H] dat))) = B)
    by reflexivity.
  split.
  - intros HB. unfold decov_criterion.
    rewrite (cov_matrix_divides_by_zero _ Hnd); [reflexivity|].
    now rewrite Hl.
  - intros HB. unfold decov_criterion.
    destruct (cov_matrix_returns _ Hnd) as (Y & HY & _); [now rewrite Hl|].
    rewrite HY. cbn [bind]. eexists. reflexivity.
Qed.

Lemma halfcorr_criterion_outcome B H dat eps :
  (H = 1 \/ H = 2 \/ H = 3 ->
   halfcorr_criterion (mkTensor [B; H] dat) eps = Raise ZeroDivisionError) /\
  (H = 0 \/ 4 <= H -> exists v, halfcorr_criterion (mkTensor [B; H] dat) eps = Ok v).
Proof.
  rewrite halfcorr_criterion_2d.
  destruct (decorr_criterion_outcome B (H - round_half H)
              (slicedQ (round_half H) H B dat) eps) as [E1 E2].
  split.
  - intros HH. apply E1. now apply kept_columns.
  - intros HH. apply E2. intros E. apply kept_columns in E. lia.
Qed.

(** The 2-D batches each criterion accepts.  For a [B x H] batch,
    whatever its entries and [eps]: [decov_criterion] centres along the
    batch axis and raises the division by zero exactly when [B = 1];
    [decorr_criterion] centres along the last axis and raises exactly
    when [H = 1]; [halfcorr_criterion] keeps [H - round(H/2)] columns and
    raises exactly when [H] is 1, 2 or 3.  Each returns a value
    otherwise, an empty axis included. *)
Theorem criteria_accept_2d B H dat eps :
  let X := mkTensor [B; H] dat in
  (B = 1 -> decov_criterion X = Raise ZeroDivisionError) /\
  (B <> 1 -> exists v, decov_criterion X = Ok v) /\
  (H = 1 -> decorr_criterion X eps = Raise ZeroDivisionError) /\
  (H <> 1 -> exists v, decorr_criterion X eps = Ok v) /\
  (H = 1 \/ H = 2 \/ H = 3 -> halfcorr_criterion X eps = Raise ZeroDivisionError) /\
  (H = 0 \/ 4 <= H -> exists v, halfcorr_criterion X eps = Ok v).
Proof.
  intros X. unfold X.
  destruct (decov_criterion_outcome B H dat) as [C1 C2].
  destruct (decorr_criterion_outcome B H dat eps) as [D1 D2].
  destruct (halfcorr_criterion_outcome B H dat eps) as [E1 E2].
  repeat split; assumption.
Qed.

(* ------------------------------------------------------------------ *)
(** ** The squared-correlation matrix and the DeCorr loss *)

Module CorrFacts.
Import Stat.
Local Open Scope Q_scope.


Lemma count_minus_1_pos (N : nat) : (2 <= N)%nat -> 0 < inject_Z (Z.of_nat N) - 1.
Proof.
  intros H. assert (G : 1 < inject_Z (Z.of_nat N)).
  { change 1 with (inject_Z 1). rewrite <- Zlt_Qlt. lia. }
  lra.
Qed.

(** The entry in terms of the sample statistics. *)
Lemma corr_entry_stat N e a b :
  (2 <= N)%nat -> List.length a = N -> List.length b = N ->
  ~ sample_var a + e == 0 -> ~ sample_var b + e == 0 ->
  CorrBounds.corr_entry N e a b
  == sample_cov a b * sample_cov a b / ((sample_var a + e) * (sample_var b + e)).
Proof.
  intros HN Ha Hb Hva Hvb. unfold CorrBounds.corr_entry, sample_cov.
  rewrite !VarFacts.var_code_centered by lia.
  unfold Qlen. rewrite Ha.
  pose proof (@count_minus_1_pos N HN) as Hn.
  field. repeat split; lra.
Qed.


Lemma corr_entry_diag N a :
  (2 <= N)%nat -> List.length a = N -> ~ sample_var a == 0 ->
  CorrBounds.corr_entry N 0 a a == 1.
Proof.
  intros HN Ha Hv.
  assert (Hv0 : ~ sample_var a + 0 == 0) by (intros E; apply Hv; lra).
  rewrite (@corr_entry_stat N 0 a a HN Ha Ha Hv0 Hv0), StatFacts.sample_cov_diag.
  field. lra.
Qed.



End CorrFacts.








(* ------------------------------------------------------------------ *)
(** ** Offsets and scales of the rows *)

Module Affine.
Import Stat.
Local Open Scope Q_scope.







End Affine.







(* ------------------------------------------------------------------ *)
(** ** [MLP] and [TwoTargetMLP] *)

Module Net.

(** [nn.Linear(in_features, out_features)]: its weight is an
    [out_features x in_features] buffer, its bias has [out_features]
    entries.  torch draws both at construction; here they are given. *)
Record Linear : Type := mkLinear {
  in_features : nat;
  out_features : nat;
  weight : list scalar;
  bias : list scalar
}.

(** Calling the layer: [x @ weight.T + bias] along the last axis, which
    must have [in_features] entries. *)
Definition apply_Linear (L : Linear) (X : tensor) : result tensor :=
  match shape X with
  | [] => Raise RuntimeError
  | _ =>
      if dim_last (shape X) =? in_features L then
        Ok (mkTensor (removelast (shape X) ++ [out_features L])
              (flat_map (fun r =>
                 map (fun o => fadd (dot (row (in_features L) (data X) r)
                                         (row (in_features L) (weight L) o))
                                    (nth o (bias L) (Fin 0%Q)))
                     (seq 0 (out_features L)))
                 (seq 0 (numel (removelast (shape X))))))
      else Raise RuntimeError
  end.

(** [nn.Flatten()]: every axis after the first becomes one. *)
Definition Flatten (X : tensor) : result tensor :=
  match shape X with
  | d0 :: d1 :: s => Ok (mkTensor [d0; numel (d1 :: s)] (data X))
  | _ => Raise IndexError
  end.

(** The two nonlinearities the constructors default to. *)
Definition ReLU (x : scalar) : scalar :=
  match x with
  | Fin a => if Qle_bool 0%Q a then Fin a else Fin 0%Q
  | Inf negative => if negative then Fin 0%Q else Inf false
  | NaN => NaN
  end.

Definition Identity (x : scalar) : scalar := x.

(** A nonlinearity is applied entry by entry. *)
Record MLP : Type := mkMLP {
  hidden_size : nat;
  target_size : nat;
  nonlinearity1 : scalar -> scalar;
  nonlinearity2 : scalar -> scalar;
  linear1 : Linear;             (* inside [linear_block1], after [Flatten] *)
  linear2 : Linear;             (* inside [linear_block2] *)
  classifier : Linear
}.

(** [MLP.__init__]; [w1 b1 w2 b2 wc bc] are the parameters torch draws. *)
Definition MLP_init (hidden_size target_size : nat)
    (nonlinearity1 nonlinearity2 : option (scalar -> scalar))
    (w1 b1 w2 b2 wc bc : list scalar) : MLP :=
  mkMLP hidden_size target_size
    (match nonlinearity1 with Some f => f | None => ReLU end)
    (match nonlinearity2 with Some f => f | None => Identity end)
    (mkLinear (28 * 28) hidden_size w1 b1)
    (mkLinear hidden_size hidden_size w2 b2)
    (mkLinear hidden_size target_size wc bc).

Definition linear_block1 (m : MLP) (x : tensor) : result tensor :=
  x <- Flatten x ;;
  x <- apply_Linear (linear1 m) x ;;
  Ok (tmap (nonlinearity1 m) x).

Definition linear_block2 (m : MLP) (x : tensor) : result tensor :=
  x <- apply_Linear (linear2 m) x ;;
  Ok (tmap (nonlinearity2 m) x).

(** [MLP.forward] *)
Definition forward (m : MLP) (x : tensor) : result (tensor * tensor) :=
  x <- linear_block1 m x ;;
  activations <- linear_block2 m x ;;
  logits <- apply_Linear (classifier m) activations ;;
  Ok (activations, logits).

Record TwoTargetMLP : Type := mkTwoTargetMLP {
  body : MLP;                   (* the attributes shared with [MLP];
                                   its [classifier] is [classifier1] *)
  target2_size : nat;
  classifier2 : Linear
}.

(** [TwoTargetMLP.__init__] *)
Definition TwoTargetMLP_init (hidden_size target1_size target2_size : nat)
    (nonlinearity1 nonlinearity2 : option (scalar -> scalar))
    (w1 b1 w2 b2 wc1 bc1 wc2 bc2 : list scalar) : TwoTargetMLP :=
  mkTwoTargetMLP
    (MLP_init hidden_size target1_size nonlinearity1 nonlinearity2
              w1 b1 w2 b2 wc1 bc1)
    target2_size
    (mkLinear hidden_size target2_size wc2 bc2).

(** [TwoTargetMLP.forward] *)
Definition forward2 (m : TwoTargetMLP) (x : tensor)
  : result (tensor * tensor * tensor) :=
  x <- linear_block1 (body m) x ;;
  activations <- linear_block2 (body m) x ;;
  logits1 <- apply_Linear (classifier (body m)) activations ;;
  logits2 <- apply_Linear (classifier2 m) activations ;;
  Ok (activations, logits1, logits2).

(** *** Shapes through the layers *)

Lemma apply_Linear_2d L B n dat :
  n = in_features L ->
  exists dat',
    apply_Linear L (mkTensor [B; n] dat) = Ok (mkTensor [B; out_features L] dat') /\
    List.length dat' = B * out_features L.
Proof.
  intros ->. unfold apply_Linear. cbn [shape].
  change (dim_last [B; in_features L]) with (in_features L).
  rewrite Nat.eqb_refl. change (removelast [B; in_features L]) with [B].
  eexists. split; [reflexivity|].
  rewrite (@flat_map_length_uniform _ _ _ (out_features L)), length_seq.
  - simpl. lia.
  - intros r _. now rewrite length_map, length_seq.
Qed.

Lemma apply_Linear_mismatch L B n dat :
  n <> in_features L ->
  apply_Linear L (mkTensor [B; n] dat) = Raise RuntimeError.
Proof.
  intros H. unfold apply_Linear. cbn [shape].
  change (dim_last [B; n]) with n. apply Nat.eqb_neq in H. now rewrite H.
Qed.

Lemma wf_2d B n dat : List.length dat = B * n -> wf (mkTensor [B; n] dat).
Proof. intros H. unfold wf. cbn. lia. Qed.

Lemma forward_accepts hidden target nl1 nl2 w1 b1 w2 b2 wc bc B d1 rest dat :
  numel (d1 :: rest) = 28 * 28 ->
  exists da dl,
    forward (MLP_init hidden target nl1 nl2 w1 b1 w2 b2 wc bc)
            (mkTensor (B :: d1 :: rest) dat)
    = Ok (mkTensor [B; hidden] da, mkTensor [B; target] dl) /\
    List.length da = B * hidden /\ List.length dl = B * target.
Proof.
  intros Hn. unfold forward, linear_block1, linear_block2, Flatten, MLP_init.
  cbn [shape data bind linear1 linear2 classifier nonlinearity1 nonlinearity2].
  rewrite Hn.
  set (f1 := match nl1 with Some f => f | None => ReLU end).
  set (f2 := match nl2 with Some f => f | None => Identity end).
  destruct (@apply_Linear_2d (mkLinear (28 * 28) hidden w1 b1) B (28 * 28) dat eq_refl)
    as (x1 & E1 & L1).
  cbn [out_features] in E1, L1. rewrite E1. cbn [bind].
  unfold tmap at 1. cbn [shape data].
  destruct (@apply_Linear_2d (mkLinear hidden hidden w2 b2) B hidden (map f1 x1) eq_refl)
    as (x2 & E2 & L2).
  cbn [out_features] in E2, L2. rewrite E2. cbn [bind].
  unfold tmap. cbn [shape data].
  destruct (@apply_Linear_2d (mkLinear hidden target wc bc) B hidden (map f2 x2) eq_refl)
    as (x3 & E3 & L3).
  cbn [out_features] in E3, L3. rewrite E3. cbn [bind].
  eexists _, _. split; [reflexivity|]. split; [|exact L3].
  now rewrite length_map.
Qed.

Lemma forward_too_few_axes m X : ndim X < 2 -> forward m X = Raise IndexError.
Proof.
  unfold ndim. destruct X as [sh dat]. cbn [shape]. intros H.
  destruct sh as [|B [|d1 rest]]; simpl in H; try lia; reflexivity.
Qed.

Lemma forward_mismatch hidden target nl1 nl2 w1 b1 w2 b2 wc bc B d1 rest dat :
  numel (d1 :: rest) <> 28 * 28 ->
  forward (MLP_init hidden target nl1 nl2 w1 b1 w2 b2 wc bc)
          (mkTensor (B :: d1 :: rest) dat)
  = Raise RuntimeError.
Proof.
  intros Hn. unfold forward, linear_block1, Flatten, MLP_init.
  cbn [shape data bind linear1].
  rewrite (@apply_Linear_mismatch (mkLinear (28 * 28) hidden w1 b1) B _ dat Hn).
  reflexivity.
Qed.

Lemma forward_activations_shape hidden target nl1 nl2 w1 b1 w2 b2 wc bc X act lg :
  forward (MLP_init hidden target nl1 nl2 w1 b1 w2 b2 wc bc) X = Ok (act, lg) ->
  shape act = [hd 0 (shape X); hidden].
Proof.
  intros E.
  destruct (Nat.lt_ge_cases (ndim X) 2) as [Hlt|Hge].
  { rewrite (forward_too_few_axes _ X Hlt) in E. discriminate E. }
  unfold ndim in Hge. destruct X as [sh dat]. cbn [shape] in *.
  destruct sh as [|B [|d1 rest]]; simpl in Hge; try lia. cbn [hd].
  destruct (Nat.eq_dec (numel (d1 :: rest)) (28 * 28)) as [Hn|Hn].
  - destruct (@forward_accepts hidden target nl1 nl2 w1 b1 w2 b2 wc bc B d1 rest dat Hn)
      as (da & dl & E' & _ & _).
    rewrite E' in E. inversion E; subst. reflexivity.
  - rewrite (@forward_mismatch hidden target nl1 nl2 w1 b1 w2 b2 wc bc B d1 rest dat Hn)
      in E.
    discriminate E.
Qed.

(** [MLP.forward] and the shape of its input.  A batch of [B] images
    whose axes after the first multiply to 28 * 28 (such as
    [B x 28 x 28] or [B x 1 x 28 x 28]) comes back as well-formed
    activations of shape [B x hidden_size] and logits of shape
    [B x target_size], whatever the parameters and nonlinearities.  Any
    other product makes the first [Linear] raise, and an input with
    fewer than two axes fails in [Flatten]. *)
Theorem forward_shapes hidden target nl1 nl2 w1 b1 w2 b2 wc bc X :
  let m := MLP_init hidden target nl1 nl2 w1 b1 w2 b2 wc bc in
  (ndim X < 2 -> forward m X = Raise IndexError) /\
  (2 <= ndim X -> numel (tl (shape X)) <> 28 * 28 ->
   forward m X = Raise RuntimeError) /\
  (2 <= ndim X -> numel (tl (shape X)) = 28 * 28 ->
   exists activations logits,
     forward m X = Ok (activations, logits) /\
     shape activations = [hd 0 (shape X); hidden] /\
     shape logits = [hd 0 (shape X); target] /\
     wf activations /\ wf logits).
Proof.
  intros m. unfold m, ndim. destruct X as [sh dat]. cbn [shape].
  split; [|split].
  - intros H. apply forward_too_few_axes. exact H.
  - intros H Hn. destruct sh as [|B [|d1 rest]]; simpl in H; try lia.
    cbn [tl] in Hn. now apply forward_mismatch.
  - intros H Hn. destruct sh as [|B [|d1 rest]]; simpl in H; try lia.
    cbn [tl hd] in *.
    destruct (@forward_accepts hidden target nl1 nl2 w1 b1 w2 b2 wc bc B d1 rest dat Hn)
      as (da & dl & E & La & Ll).
    eexists _, _. split; [exact E|]. split; [reflexivity|]. split; [reflexivity|].
    split; now apply wf_2d.
Qed.

(** What the activations of [MLP.forward] do to the three criteria.  On
    an accepted batch of [B] images: [decorr_criterion] raises its
    division by zero exactly when [hidden_size = 1],
    [halfcorr_criterion] exactly when [hidden_size] is 1, 2 or 3, and
    [decov_criterion], which centres along the batch, exactly when the
    batch holds one image; in every other case each returns a value. *)
Theorem criteria_on_activations hidden target nl1 nl2 w1 b1 w2 b2 wc bc X eps :
  2 <= ndim X -> numel (tl (shape X)) = 28 * 28 ->
  let B := hd 0 (shape X) in
  exists activations logits,
    forward (MLP_init hidden target nl1 nl2 w1 b1 w2 b2 wc bc) X
    = Ok (activations, logits) /\
    (B = 1 -> decov_criterion activations = Raise ZeroDivisionError) /\
    (B <> 1 -> exists v, decov_criterion activations = Ok v) /\
    (hidden = 1 -> decorr_criterion activations eps = Raise ZeroDivisionError) /\
    (hidden <> 1 -> exists v, decorr_criterion activations eps = Ok v) /\
    (hidden = 1 \/ hidden = 2 \/ hidden = 3 ->
     halfcorr_criterion activations eps = Raise ZeroDivisionError) /\
    (hidden = 0 \/ 4 <= hidden ->
     exists v, halfcorr_criterion activations eps = Ok v).
Proof.
  intros H Hn B. unfold B, ndim in *. destruct X as [sh dat]. cbn [shape] in *.
  destruct sh as [|B0 [|d1 rest]]; simpl in H; try lia. cbn [tl hd] in *.
  destruct (@forward_accepts hidden target nl1 nl2 w1 b1 w2 b2 wc bc B0 d1 rest dat Hn)
    as (da & dl & E & _ & _).
  eexists _, _. split; [exact E|].
  destruct (decov_criterion_outcome B0 hidden da) as [C1 C2].
  destruct (decorr_criterion_outcome B0 hidden da eps) as [D1 D2].
  destruct (halfcorr_criterion_outcome B0 hidden da eps) as [E1 E2].
  repeat split; assumption.
Qed.

Lemma criteria_on_activations_witness :
  let X := mkTensor [1; 28; 28] (repeat (Fin 1%Q) 784) in
  exists activations logits,
    forward (MLP_init 2 10 None None [] [] [] [] [] []) X = Ok (activations, logits) /\
    (1 = 1 -> decov_criterion activations = Raise ZeroDivisionError) /\
    (1 <> 1 -> exists v, decov_criterion activations = Ok v) /\
    (2 = 1 -> decorr_criterion activations None = Raise ZeroDivisionError) /\
    (2 <> 1 -> exists v, decorr_criterion activations None = Ok v) /\
    (2 = 1 \/ 2 = 2 \/ 2 = 3 ->
     halfcorr_criterion activations None = Raise ZeroDivisionError) /\
    (2 = 0 \/ 4 <= 2 ->
     exists v, halfcorr_criterion activations None = Ok v).
Proof.
  apply (@criteria_on_activations 2 10 None None [] [] [] [] [] []
           (mkTensor [1; 28; 28] (repeat (Fin 1%Q) 784)) None).
  - unfold ndim. cbn [shape List.length]. lia.
  - reflexivity.
Defined.

(** [TwoTargetMLP.forward] returns the activations and first logits that
    [MLP.forward] returns for the module with the same blocks and
    [classifier1], and adds second logits of shape [B x target2_size];
    it fails exactly where [MLP.forward] does. *)
Theorem forward2_extends_forward hidden t1 t2 nl1 nl2 w1 b1 w2 b2 wc1 bc1 wc2 bc2 X :
  let m2 := TwoTargetMLP_init hidden t1 t2 nl1 nl2 w1 b1 w2 b2 wc1 bc1 wc2 bc2 in
  let m := MLP_init hidden t1 nl1 nl2 w1 b1 w2 b2 wc1 bc1 in
  (forall e, forward m X = Raise e -> forward2 m2 X = Raise e) /\
  (forall activations logits,
     forward m X = Ok (activations, logits) ->
     exists logits2,
       forward2 m2 X = Ok (activations, logits, logits2) /\
       shape logits2 = [hd 0 (shape X); t2] /\ wf logits2).
Proof.
  intros m2 m. unfold m2, m, TwoTargetMLP_init.
  set (mm := MLP_init hidden t1 nl1 nl2 w1 b1 w2 b2 wc1 bc1).
  pose proof (@forward_activations_shape hidden t1 nl1 nl2 w1 b1 w2 b2 wc1 bc1 X) as S.
  fold mm in S.
  unfold forward2, forward in *. cbn [body classifier2].
  destruct (linear_block1 mm X) as [x1|e1] eqn:E1; cbn [bind] in *.
  2:{ split; [intros e H; now inversion H | intros a l H; discriminate H]. }
  destruct (linear_block2 mm x1) as [act|e2] eqn:E2; cbn [bind] in *.
  2:{ split; [intros e H; now inversion H | intros a l H; discriminate H]. }
  destruct (apply_Linear (classifier mm) act) as [lg|e3] eqn:E3; cbn [bind] in *.
  2:{ split; [intros e H; now inversion H | intros a l H; discriminate H]. }
  split; [intros e H; discriminate H|].
  intros a l H. inversion H; subst a l. clear H.
  specialize (S act lg eq_refl).
  destruct act as [sha da]. cbn [shape] in S. subst sha.
  destruct (@apply_Linear_2d (mkLinear hidden t2 wc2 bc2) (hd 0 (shape X)) hidden da
              eq_refl) as (d2 & E & L2).
  rewrite E. cbn [bind out_features]. eexists. split; [reflexivity|].
  split; [reflexivity | now apply wf_2d].
Qed.

End Net.

(* ------------------------------------------------------------------ *)
(** ** The experiment script [1task-concept.py] *)

Module Driver.

(** The loss functions the script hands to the training routine. *)
Definition criterion : Type := tensor -> option scalar -> result scalar.

Definition ml_decorr_criterion : criterion := decorr_criterion.

(** The keyword arguments of one [ml.RelabeledSubset]; an argument the
    script leaves out has the default of [__init__]. *)
Record subset_kwargs : Type := mkSubsetKwargs {
  class_size : Sampler.size_arg;
  class_inds : Sampler.classes_arg;
  target2_config : Sampler.config_arg
}.

(** One entry of [kwargs_map]; the device [torch.device('cuda', i)] is
    its number [i]. *)
Record train_kwargs : Type := mkKwargs {
  device : nat;
  train_dataset : subset_kwargs;
  decorr_criterion : option criterion
}.

(** [zip(itertools.cycle(devs), l)]: the iterator runs through the
    devices once, then again and again through the copy it saved, and
    the zip ends with [l], or at once when there is no device. *)
Fixpoint zip_cycle {A B} (saved cur : list A) (l : list B) : list (A * B) :=
  match l with
  | [] => []
  | x :: l' =>
      match cur with
      | d :: cur' => (d, x) :: zip_cycle saved cur' l'
      | [] =>
          match saved with
          | [] => []
          | d :: cur' => (d, x) :: zip_cycle saved cur' l'
          end
      end
  end.

Section Design.

(** The script sets [CLASS_SIZES = [200, 400, 600, 800, 1000]] and
    [NUM_REPLICATES = 8]; [device_count] is
    [torch.cuda.device_count()]. *)
Variables (CLASS_SIZES : list Z) (NUM_REPLICATES : nat) (device_count : nat).

Definition num_sizes : nat := List.length CLASS_SIZES.

Definition class_sizes : list Z :=
  let once := flat_map (fun size => repeat size NUM_REPLICATES) CLASS_SIZES in
  once ++ once.

Definition decorr_criteria : list (option criterion) :=
  flat_map (fun criterion => repeat criterion (NUM_REPLICATES * num_sizes))
           [None; Some ml_decorr_criterion].

Definition train_datasets : list subset_kwargs :=
  map (fun class_size =>
         mkSubsetKwargs (Sampler.SizeInt class_size) Sampler.ClassesAll
                        (Sampler.CfgStr "none"))
      class_sizes.

Definition test_dataset : subset_kwargs :=
  mkSubsetKwargs Sampler.SizeAll Sampler.ClassesAll (Sampler.CfgStr "none").

Definition devices : list nat := seq 0 device_count.

Definition kwargs_map : list train_kwargs :=
  map (fun t => mkKwargs (fst t) (fst (snd t)) (snd (snd t)))
      (zip_cycle devices devices (combine train_datasets decorr_criteria)).

Definition MAX_PROCESSES : nat := 2 * device_count.

Definition num_processes : nat := Nat.min (List.length kwargs_map) MAX_PROCESSES.

End Design.

(** *** The cycling zip *)

Lemma skipn_cons_nth {A} (saved : list A) k d0 cur' d :
  skipn k saved = d0 :: cur' ->
  k < List.length saved /\ nth k saved d = d0 /\ cur' = skipn (S k) saved.
Proof.
  revert k. induction saved as [|a s IH]; intros k H.
  - destruct k; discriminate H.
  - destruct k as [|k].
    + cbn in H. inversion H; subst. cbn. repeat split. lia.
    + cbn [skipn] in H. destruct (IH k H) as (Hk & Hn & Hc).
      cbn [List.length nth]. repeat split; [lia | exact Hn | exact Hc].
Qed.

Lemma zip_cycle_length {A B} (saved cur : list A) (l : list B) :
  saved <> [] -> List.length (zip_cycle saved cur l) = List.length l.
Proof.
  intros Hs. revert cur. induction l as [|x l IH]; intros cur; [reflexivity|].
  cbn [zip_cycle]. destruct cur as [|d cur'].
  - destruct saved as [|d cur']; [congruence|]. cbn [List.length]. now rewrite IH.
  - cbn [List.length]. now rewrite IH.
Qed.

Lemma zip_cycle_nth {A B} (saved cur : list A) (l : list B) k i d x :
  saved <> [] -> cur = skipn k saved -> k <= List.length saved ->
  i < List.length l ->
  nth i (zip_cycle saved cur l) (d, x)
  = (nth ((k + i) mod List.length saved) saved d, nth i l x).
Proof.
  intros Hs. revert cur k i.
  induction l as [|y l IH]; intros cur k i Hc Hk Hi; [cbn in Hi; lia|].
  assert (HD : List.length saved <> 0) by (destruct saved; [congruence | cbn; lia]).
  cbn [zip_cycle]. destruct cur as [|d0 cur'].
  - assert (k = List.length saved).
    { assert (E := f_equal (@List.length A) Hc). rewrite length_skipn in E.
      cbn in E. lia. }
    subst k. destruct saved as [|d0 s]; [congruence|].
    destruct i as [|i].
    + cbn [nth]. rewrite Nat.add_0_r, Nat.Div0.mod_same. reflexivity.
    + cbn [nth]. cbn [List.length] in Hi.
      rewrite (IH s 1 i eq_refl); [| cbn; lia | lia].
      f_equal. f_equal.
      replace (List.length (d0 :: s) + S i) with (1 + i + 1 * List.length (d0 :: s)) by lia.
      now rewrite Nat.Div0.mod_add.
  - symmetry in Hc. destruct (@skipn_cons_nth _ saved k d0 cur' d Hc) as (Hlt & Hn & Hc').
    destruct i as [|i].
    + cbn [nth]. rewrite Nat.add_0_r, Nat.mod_small by exact Hlt. now rewrite Hn.
    + cbn [nth]. cbn [List.length] in Hi.
      rewrite (IH cur' (S k) i Hc'); [| lia | lia].
      f_equal. f_equal. f_equal. lia.
Qed.

Lemma zip_cycle_no_device {A B} (l : list B) : zip_cycle (@nil A) [] l = [].
Proof. destruct l; reflexivity. Qed.

(** *** The replicate lists *)

Lemma replicated_length {A} (l : list A) R :
  List.length (flat_map (fun size => repeat size R) l) = R * List.length l.
Proof.
  induction l as [|a l IH]; cbn [flat_map List.length]; [lia|].
  rewrite length_app, repeat_length, IH. lia.
Qed.

Lemma replicated_nth {A} (l : list A) R i d :
  i < R * List.length l ->
  nth i (flat_map (fun size => repeat size R) l) d = nth (i / R) l d.
Proof.
  revert i. induction l as [|a l IH]; intros i Hi; [cbn in Hi; lia|].
  assert (HR : R <> 0) by (intros ->; cbn in Hi; lia).
  cbn [flat_map List.length] in *.
  destruct (Nat.lt_ge_cases i R) as [Hlt|Hge].
  - rewrite app_nth1 by now rewrite repeat_length.
    rewrite Nat.div_small by exact Hlt. cbn [nth].
    rewrite (@nth_indep _ _ i d a) by now rewrite repeat_length.
    apply nth_repeat.
  - rewrite app_nth2 by (rewrite repeat_length; lia).
    rewrite repeat_length, IH by lia.
    replace i with ((i - R) + 1 * R) at 2 by lia.
    rewrite Nat.div_add by exact HR.
    now rewrite Nat.add_1_r.
Qed.

Lemma class_sizes_length SIZES R :
  List.length (class_sizes SIZES R) = 2 * (R * List.length SIZES).
Proof. unfold class_sizes. rewrite length_app, replicated_length. lia. Qed.

Lemma class_sizes_nth SIZES R i :
  i < 2 * (R * List.length SIZES) ->
  nth i (class_sizes SIZES R) 0%Z
  = nth ((i mod (R * List.length SIZES)) / R) SIZES 0%Z.
Proof.
  intros Hi. unfold class_sizes.
  set (n := R * List.length SIZES) in *.
  destruct (Nat.lt_ge_cases i n) as [Hlt|Hge].
  - rewrite app_nth1 by now rewrite replicated_length.
    rewrite Nat.mod_small by exact Hlt. now apply replicated_nth.
  - rewrite app_nth2 by (rewrite replicated_length; exact Hge).
    rewrite replicated_length. fold n.
    assert (Hm : i mod n = i - n).
    { replace i with ((i - n) + 1 * n) at 1 by lia.
      rewrite Nat.Div0.mod_add. apply Nat.mod_small. lia. }
    rewrite Hm. apply replicated_nth. fold n. lia.
Qed.

Lemma decorr_criteria_length SIZES R :
  List.length (decorr_criteria SIZES R) = 2 * (R * List.length SIZES).
Proof.
  unfold decorr_criteria, num_sizes. cbn [flat_map].
  rewrite !length_app, !repeat_length. cbn. lia.
Qed.

Lemma decorr_criteria_nth SIZES R i :
  i < 2 * (R * List.length SIZES) ->
  nth i (decorr_criteria SIZES R) None
  = if i <? R * List.length SIZES then None else Some ml_decorr_criterion.
Proof.
  intros Hi. unfold decorr_criteria, num_sizes. cbn [flat_map]. rewrite app_nil_r.
  set (n := R * List.length SIZES) in *.
  destruct (Nat.ltb_spec i n) as [Hlt|Hge].
  - rewrite app_nth1 by now rewrite repeat_length. apply nth_repeat.
  - rewrite app_nth2 by (rewrite repeat_length; exact Hge).
    rewrite repeat_length.
    rewrite (@nth_indep _ _ (i - n) None (Some ml_decorr_criterion))
      by (rewrite repeat_length; lia).
    apply nth_repeat.
Qed.

(** The design of the experiment, for any list of class sizes, number of
    replicates and number of CUDA devices.  With [D >= 1] devices the
    script prepares [2 * NUM_REPLICATES * len(CLASS_SIZES)] trainings,
    and the training at position [i] runs on device [i mod D], on a
    subset of all classes without second labels capped at the class size
    at position [(i mod (R * n)) / R] of [CLASS_SIZES], without a
    decorrelation criterion in the first half of the list and with
    [ml.decorr_criterion] in the second: every class size gets
    [NUM_REPLICATES] baseline trainings and as many DeCorr trainings.
    Without a CUDA device the list of trainings is empty, and so is the
    pool the script asks for. *)
Theorem replicate_design SIZES R D :
  let n := List.length SIZES in
  (D = 0 -> kwargs_map SIZES R D = [] /\ num_processes SIZES R D = 0) /\
  (0 < D ->
   List.length (kwargs_map SIZES R D) = 2 * (R * n) /\
   num_processes SIZES R D = Nat.min (2 * (R * n)) (2 * D) /\
   forall i, i < 2 * (R * n) ->
     exists kw,
       nth_error (kwargs_map SIZES R D) i = Some kw /\
       device kw = i mod D /\
       train_dataset kw
       = mkSubsetKwargs (Sampler.SizeInt (nth ((i mod (R * n)) / R) SIZES 0%Z))
                        Sampler.ClassesAll (Sampler.CfgStr "none") /\
       decorr_criterion kw
       = if i <? R * n then None else Some ml_decorr_criterion).
Proof.
  intros n. unfold n. split.
  - intros ->. unfold num_processes, kwargs_map, devices. cbn [seq].
    rewrite zip_cycle_no_device. split; reflexivity.
  - intros HD.
    assert (Hdev : devices D <> []).
    { unfold devices. destruct D; [lia | discriminate]. }
    assert (Hcomb : List.length (combine (train_datasets SIZES R) (decorr_criteria SIZES R))
                    = 2 * (R * List.length SIZES)).
    { rewrite length_combine. unfold train_datasets.
      rewrite length_map, class_sizes_length, decorr_criteria_length. lia. }
    assert (Hlen : List.length (kwargs_map SIZES R D) = 2 * (R * List.length SIZES)).
    { unfold kwargs_map. rewrite length_map, zip_cycle_length by exact Hdev. exact Hcomb. }
    split; [exact Hlen|]. split.
    { unfold num_processes, MAX_PROCESSES. now rewrite Hlen. }
    intros i Hi.
    set (dflt := mkKwargs 0 (mkSubsetKwargs (Sampler.SizeInt 0) Sampler.ClassesAll
                                            (Sampler.CfgStr "none")) None).
    exists (nth i (kwargs_map SIZES R D) dflt).
    split; [apply nth_error_nth'; now rewrite Hlen|].
    unfold kwargs_map.
    change dflt with ((fun t : nat * (subset_kwargs * option criterion) =>
                         mkKwargs (fst t) (fst (snd t)) (snd (snd t)))
                        (0, (mkSubsetKwargs (Sampler.SizeInt 0) Sampler.ClassesAll
                                            (Sampler.CfgStr "none"), None))).
    rewrite map_nth.
    rewrite (@zip_cycle_nth _ _ (devices D) (devices D) _ 0 i); cbn [fst snd device
      train_dataset decorr_criterion];
      [| exact Hdev | reflexivity | lia | now rewrite Hcomb].
    rewrite combine_nth
      by (unfold train_datasets;
          now rewrite length_map, class_sizes_length, decorr_criteria_length).
    cbn [fst snd]. unfold devices at 1 2. rewrite length_seq, Nat.add_0_l.
    rewrite seq_nth by (apply Nat.mod_upper_bound; lia).
    split; [reflexivity|]. split.
    + unfold train_datasets.
      change (mkSubsetKwargs (Sampler.SizeInt 0) Sampler.ClassesAll (Sampler.CfgStr "none"))
        with ((fun class_size => mkSubsetKwargs (Sampler.SizeInt class_size)
                 Sampler.ClassesAll (Sampler.CfgStr "none")) 0%Z).
      rewrite map_nth. now rewrite class_sizes_nth.
    + now apply decorr_criteria_nth.
Qed.

End Driver.
